(** * Dev-Knowledge: the crawl-and-ingest pipeline

    A shallow embedding of [utils/Scraper.ts] (class [ScraperUtils]),
    [Processor.ts] ([processScrapedResult]) and [core/Database.ts]
    ([searchVectors]), with the properties of the crawl frontier, the batch
    ingest pipeline and the vector search stated over it.

    Conventions.
    - A JavaScript [Set<string>] iterates in insertion order; it is a list
      without repetition, new members appended at the end ([JSSet]).
    - A JavaScript [number] holding a count or a depth is a [Z]; a distance
      or a vector component is a rational [Q] (binary rounding is not
      modelled).
    - The platform and the libraries the code calls ([URL], the HTTP client,
      the order in which concurrently started promises settle, the id
      generator, the clock, the distance function of the SQL engine) are
      parameters of the development. *)

From Stdlib Require Import ZArith QArith Qround Lia Ascii String.
From stdpp Require Import base tactics option list sorting strings.

Local Open Scope string_scope.
Local Open Scope list_scope.
Local Open Scope Z_scope.

(** ** JavaScript strings *)

Module JSString.

(** [s.includes(t)] *)
Fixpoint includes (s t : string) : bool :=
  String.prefix t s ||
  match s with
  | EmptyString => false
  | String _ s' => includes s' t
  end.

(** [s.startsWith(t)] *)
Definition startsWith (s t : string) : bool := String.prefix t s.

(** [s.endsWith(t)] *)
Definition endsWith (s t : string) : bool :=
  String.prefix (String.rev t) (String.rev s).

Definition lower (c : ascii) : ascii :=
  let n := nat_of_ascii c in
  if ((65 <=? n) && (n <=? 90))%nat then ascii_of_nat (n + 32) else c.

(** [s.toLowerCase()], on the ASCII strings a serialised URL consists of *)
Fixpoint toLowerCase (s : string) : string :=
  match s with
  | EmptyString => EmptyString
  | String c s' => String (lower c) (toLowerCase s')
  end.

(** The text before the first character satisfying [stop], and the text
    from that character on. *)
Fixpoint break (stop : ascii -> bool) (s : string) : string * string :=
  match s with
  | EmptyString => (EmptyString, EmptyString)
  | String c s' =>
      if stop c then (EmptyString, s)
      else let '(a, b) := break stop s' in (String c a, b)
  end.

Definition is_one_of (cs : string) (c : ascii) : bool :=
  bool_decide (c ∈ list_ascii_of_string cs).

End JSString.

(** ** JavaScript arrays *)

Module JSArray.
Section Slice.
Context {A : Type}.

(** The relative index of [slice]: a negative index counts from the
    end, and both ends are clamped to the array. *)
Definition relative (len : nat) (i : Z) : nat :=
  if (i <? 0)%Z then Z.to_nat (Z.max (Z.of_nat len + i) 0)
  else Nat.min (Z.to_nat i) len.

(** [l.slice(start, stop)] *)
Definition slice (l : list A) (start stop : Z) : list A :=
  let k := relative (length l) start in
  let e := relative (length l) stop in
  take (e - k) (drop k l).

(** [l.slice(start)] *)
Definition slice_from (l : list A) (start : Z) : list A :=
  drop (relative (length l) start) l.

(** [l.splice(0, deleteCount)]: the removed elements and what stays. *)
Definition splice0 (l : list A) (deleteCount : Z) : list A * list A :=
  let n := Z.to_nat deleteCount in (take n l, drop n l).
End Slice.
End JSArray.

(** ** JavaScript [Set<string>] *)

Module JSSet.
Definition t := list string.

Definition empty : t := [].
Definition has (s : t) (x : string) : bool := bool_decide (x ∈ s).
Definition add (s : t) (x : string) : t := if has s x then s else s ++ [x].
Definition delete (s : t) (x : string) : t := filter (λ y, y ≠ x) s.
Definition size (s : t) : nat := length s.
Definition toArray (s : t) : list string := s.
End JSSet.

(** ** Interfaces ([interfaces/Scraper.ts], [interfaces/Embedding.ts]) *)

Definition number := Q.

Record ScrapeItem := { item_url : string; depth : Z }.

Record ScrapeResult := { url : string; content : string }.

Record ScrapeSchema := {
  schema_url : list string;
  (** [parse]: [None] is [null] *)
  parse : string -> option string
}.

Record EmbeddingResult := {
  count : Z;
  data : list (list number);
  dimensions : Z
}.

(** The encoder: [extract] returns a promise, [None] when it rejects. *)
Record EmbedEncoder := { extract : list string -> option EmbeddingResult }.

Record EmbeddingStored := {
  id : string;
  source : string;
  stored_content : string;
  vector : list number;
  timestamp : Z
}.

Record EmbeddingQuery := {
  query_id : string;
  query_source : string;
  query_content : string;
  query_vector : list number;
  query_timestamp : Z;
  similarity : Z
}.

(** The fields of the platform's [URL] object the crawler reads. *)
Record URL := { href : string; hostname : string; pathname : string }.

(** ** The link filter of [ScraperUtils] *)

Module Regex.

Definition dquote : ascii := ascii_of_nat 34.
Definition squote : ascii := ascii_of_nat 39.

(** The character class of the two quote characters. *)
Definition is_quote (c : ascii) : bool :=
  Ascii.eqb c dquote || Ascii.eqb c squote.

(** The longest run of characters that are not quotes, and what follows
    it. *)
Fixpoint span_nonquote (s : string) : string * string :=
  match s with
  | EmptyString => (EmptyString, EmptyString)
  | String c s' =>
      if is_quote c then (EmptyString, s)
      else let '(a, b) := span_nonquote s' in (String c a, b)
  end.

(** One attempt of [hrefRegex], anchored at the head of [s]: the letters
    href in either case, an equals sign, a quote, one or more characters
    that are not quotes (the capture group), a quote. The result is the
    capture and the text after the match. *)
Definition match_here (s : string) : option (string * string) :=
  match s with
  | String h (String r (String e (String f (String eq (String q s'))))) =>
      if (JSString.toLowerCase (String h (String r (String e (String f EmptyString))))
           =? "href")%string
      then if Ascii.eqb eq "=" && is_quote q
      then match span_nonquote s' with
           | (String c cap, String _ rest) => Some (String c cap, rest)
           | _ => None
           end
      else None else None
  | _ => None
  end.

(** The captures of the successive [hrefRegex.exec(html)] calls: the
    global flag resumes after each match, a failed attempt moves on by
    one character. *)
Fixpoint exec_all (fuel : nat) (html : string) : list string :=
  match fuel with
  | O => []
  | S fuel' =>
      match match_here html with
      | Some (cap, rest) => cap :: exec_all fuel' rest
      | None =>
          match html with
          | EmptyString => []
          | String _ html' => exec_all fuel' html'
          end
      end
  end.

Definition hrefs (html : string) : list string :=
  exec_all (S (String.length html)) html.

End Regex.

Section Filter.

(** [new URL(s)]: [None] when the constructor throws. *)
Variable URL_parse : string -> option URL.
(** [new URL(href, base)] *)
Variable URL_resolve : string -> URL -> option URL.

(** The test on [urlObj.pathname] in [isValidUrl]. *)
Definition validPathname (p : string) : bool :=
  let pathname := JSString.toLowerCase p in
  JSString.endsWith pathname ".html" || JSString.endsWith pathname ".htm"
  || negb (JSString.includes pathname ".").

Definition isValidUrl (url : string) : bool :=
  if JSString.includes url "#" then false
  else match URL_parse url with
       | Some urlObj => validPathname (pathname urlObj)
       | None => false
       end.

Definition isWithinSameDomain (url baseUrl : string) : bool :=
  match URL_parse url, URL_parse baseUrl with
  | Some urlObj, Some baseObj =>
      bool_decide (hostname urlObj = hostname baseObj)
  | _, _ => false
  end.

(** The body of the [while] loop of [extractLinks] for one capture. *)
Definition keepLink (base : URL) (baseUrl : string) (h : string)
  : option string :=
  match URL_resolve h base with
  | Some abs =>
      let absoluteUrl := href abs in
      if isWithinSameDomain absoluteUrl baseUrl && isValidUrl absoluteUrl
      then Some absoluteUrl else None
  | None => None
  end.

(** [extractLinks(html, baseUrl)]: [None] when [new URL(baseUrl)] throws. *)
Definition extractLinks (html baseUrl : string) : option (list string) :=
  match URL_parse baseUrl with
  | Some base => Some (omap (keepLink base baseUrl) (Regex.hrefs html))
  | None => None
  end.

End Filter.

(** ** The world outside the crawler *)

Inductive LogEntry :=
  | LogDebug (links : nat) (page : string) (level : Z)
  | LogError (page : string)
  | LogInfo (stored : string).

Inductive Settled := Fulfilled | Rejected.

Record World := {
  (** the URLs handed to [fetchClient.get], oldest first *)
  fetches : list string;
  (** the rows of table [embedding], oldest first *)
  embedding : list EmbeddingStored;
  (** the arguments of the calls of [encoder.extract], oldest first *)
  extracts : list (list string);
  (** what [LoggerUtils] was asked to write, oldest first *)
  logs : list LogEntry;
  (** how many ids (and timestamps) have been drawn *)
  ticks : nat
}.

Definition World_new : World :=
  {| fetches := []; embedding := []; extracts := []; logs := []; ticks := O |}.

Definition log (e : LogEntry) (w : World) : World :=
  {| fetches := fetches w; embedding := embedding w; extracts := extracts w;
     logs := logs w ++ [e]; ticks := ticks w |}.

Definition fetching (u : string) (w : World) : World :=
  {| fetches := fetches w ++ [u]; embedding := embedding w;
     extracts := extracts w; logs := logs w; ticks := ticks w |}.

Definition extracting (sentences : list string) (w : World) : World :=
  {| fetches := fetches w; embedding := embedding w;
     extracts := extracts w ++ [sentences]; logs := logs w; ticks := ticks w |}.

Definition tick (w : World) : World :=
  {| fetches := fetches w; embedding := embedding w; extracts := extracts w;
     logs := logs w; ticks := S (ticks w) |}.

Definition set_embedding (t : list EmbeddingStored) (w : World) : World :=
  {| fetches := fetches w; embedding := t; extracts := extracts w;
     logs := logs w; ticks := ticks w |}.

(** ** [Database] ([core/Database.ts]) *)

Module Database.

(** [insertVector]: the statement appends a row; column [id] is the
    primary key of the table, so a second row with a stored id is refused
    ([None]: the call throws). *)
Definition insertVector (id_ : string) (embedding_ : list number)
    (source_ content_ : string) (timestamp_ : Z)
    (table : list EmbeddingStored) : option (list EmbeddingStored) :=
  if bool_decide (id_ ∈ id <$> table) then None
  else Some (table ++ [{| id := id_; source := source_;
                          stored_content := content_;
                          vector := embedding_; timestamp := timestamp_ |}]).

(** A row of the [SELECT]: the stored columns and the computed
    [distance]. *)
Record Row := { stored : EmbeddingStored; distance : option number }.

(** [Math.round]: the nearest integer, halves upwards. *)
Definition Math_round (x : Q) : Z := Qfloor (x + (1 # 2))%Q.

Section Search.

(** [vec_distance_cosine] of the SQL engine's vector extension. *)
Variable vec_distance_cosine : list number -> list number -> Q.

(** [ORDER BY] ascending: insertion into a list sorted by distance. *)
Fixpoint order_insert (r : Row * Q) (l : list (Row * Q)) : list (Row * Q) :=
  match l with
  | [] => [r]
  | r' :: l' =>
      if Qle_bool (snd r) (snd r') then r :: l else r' :: order_insert r l'
  end.

Definition order_by (l : list (Row * Q)) : list (Row * Q) :=
  foldr order_insert [] l.

(** [statement.all(queryBuffer, queryBuffer, limit)]: every row with
    its distance to the query, ordered by that distance, the first
    [limit] of them; [limit] is a number of rows. *)
Definition statement_all (query : list number) (limit : nat)
    (table : list EmbeddingStored) : list Row :=
  let scored :=
    (λ e, let d := vec_distance_cosine (vector e) query in
          ({| stored := e; distance := Some d |}, d)) <$> table in
  take limit (fst <$> order_by scored).

Definition searchVectors (queryEmbedding : list number) (limit : nat)
    (table : list EmbeddingStored) : list EmbeddingQuery :=
  (λ result,
     {| query_id := id (stored result);
        query_source := source (stored result);
        query_content := stored_content (stored result);
        query_vector := vector (stored result);
        query_timestamp := timestamp (stored result);
        similarity :=
          Math_round ((1 - default 0 (distance result)) * 100)%Q |})
    <$> statement_all queryEmbedding limit table.

(** The order of a scored list. *)
Definition by_score (a b : Row * Q) : Prop := (snd a <= snd b)%Q.

(** The entry reported for a stored row at a given query. *)
Definition reported (query : list number) (e : EmbeddingStored)
  : EmbeddingQuery :=
  {| query_id := id e; query_source := source e;
     query_content := stored_content e; query_vector := vector e;
     query_timestamp := timestamp e;
     similarity :=
       Math_round ((1 - vec_distance_cosine (vector e) query) * 100)%Q |}.

(** Ascending cosine distance to the query. *)
Definition nearer (query : list number) (a b : EmbeddingStored) : Prop :=
  (vec_distance_cosine (vector a) query
   <= vec_distance_cosine (vector b) query)%Q.

End Search.

End Database.

(** ** [processScrapedResult] ([Processor.ts]) *)

Section Processor.

(** [GeneratorUtils.generateId()] and [Date.now()], by number of draws. *)
Variable generateId : nat -> string.
Variable Date_now : nat -> Z.

(** Up to the [await]: the transform runs; [Some markdown] when the call
    is suspended on [encoder.extract([markdown])], [None] when it has
    returned. *)
Definition processScrapedResult_start (result : ScrapeResult)
    (schema : ScrapeSchema) (w : World) : World * option string :=
  match parse schema (content result) with
  | None => (w, None)
  | Some markdown =>
      if (String.length markdown =? 0)%nat then (w, None)
      else (extracting [markdown] w, Some markdown)
  end.

(** From the [await] on. *)
Definition processScrapedResult_resume (result : ScrapeResult)
    (encoder : EmbedEncoder) (markdown : string) (w : World)
    : World * Settled :=
  match extract encoder [markdown] with
  | None => (w, Rejected)
  | Some embeddingResult =>
      let embeddingVector := default [] (head (data embeddingResult)) in
      let id_ := generateId (ticks w) in
      let timestamp_ := Date_now (ticks w) in
      let w1 := tick w in
      match Database.insertVector id_ embeddingVector (url result) markdown
              timestamp_ (embedding w1) with
      | Some table => (log (LogInfo (url result)) (set_embedding table w1),
                       Fulfilled)
      | None => (w1, Rejected)
      end
  end.

(** One call, awaited on its own. *)
Definition processScrapedResult (result : ScrapeResult)
    (schema : ScrapeSchema) (encoder : EmbedEncoder) (w : World)
    : World * Settled :=
  match processScrapedResult_start result schema w with
  | (w1, None) => (w1, Fulfilled)
  | (w1, Some markdown) =>
      processScrapedResult_resume result encoder markdown w1
  end.

End Processor.

(** ** [ScraperUtils] ([utils/Scraper.ts]) *)

(** The fields of one instance. *)
Record ScraperUtils := {
  visited : JSSet.t;
  queue : JSSet.t;
  encoder : option EmbedEncoder;
  schema : option ScrapeSchema;
  results : list ScrapeResult;
  maxDepth : Z
}.

(** [new ScraperUtils()] *)
Definition ScraperUtils_new : ScraperUtils :=
  {| visited := JSSet.empty; queue := JSSet.empty; encoder := None;
     schema := None; results := []; maxDepth := 10 |}.

(** An instance together with the world it acts on. *)
Record State := { self : ScraperUtils; world : World }.

Definition set_visited (v : JSSet.t) (st : State) : State :=
  {| self := {| visited := v; queue := queue (self st);
                encoder := encoder (self st); schema := schema (self st);
                results := results (self st);
                maxDepth := maxDepth (self st) |};
     world := world st |}.

Definition set_queue (q : JSSet.t) (st : State) : State :=
  {| self := {| visited := visited (self st); queue := q;
                encoder := encoder (self st); schema := schema (self st);
                results := results (self st);
                maxDepth := maxDepth (self st) |};
     world := world st |}.

Definition set_results (r : list ScrapeResult) (st : State) : State :=
  {| self := {| visited := visited (self st); queue := queue (self st);
                encoder := encoder (self st); schema := schema (self st);
                results := r; maxDepth := maxDepth (self st) |};
     world := world st |}.

Definition set_world (w : World) (st : State) : State :=
  {| self := self st; world := w |}.

Definition is_some {A : Type} (o : option A) : bool :=
  match o with Some _ => true | None => false end.

Section Scraper.

Variable URL_parse : string -> option URL.
Variable URL_resolve : string -> URL -> option URL.
(** [fetchClient.get(url, ...)] with its own timeout and retries: the
    body, or [None] when the call fails. *)
Variable fetchClient_get : string -> option string.
(** The order in which the fetches of one batch, started in the order
    given, settle. *)
Variable fetch_settle : list ScrapeItem -> list ScrapeItem.
(** The order in which the suspended ingest calls of one batch settle. *)
Variable ingest_settle :
  list (ScrapeResult * string) -> list (ScrapeResult * string).
Variable generateId : nat -> string.
Variable Date_now : nat -> Z.

(** *** [processUrl] *)

(** [processUrl] up to the [await] of the fetch: [true] when the fetch
    has been issued, [false] when the call returned at the visited
    test. *)
Definition processUrl_start (queueItem : ScrapeItem) (st : State)
  : State * bool :=
  let url := item_url queueItem in
  if JSSet.has (visited (self st)) url then (st, false)
  else
    (set_world (fetching url (world st))
       (set_visited (JSSet.add (visited (self st)) url) st), true).

(** The [forEach] over [newLinks]. *)
Definition enqueue (st : State) (link : string) : State :=
  if JSSet.has (visited (self st)) link then st
  else set_queue (JSSet.add (queue (self st)) link) st.

(** [processUrl] from the moment its fetch settles. *)
Definition processUrl_resume (st : State) (queueItem : ScrapeItem) : State :=
  let url_ := item_url queueItem in
  match fetchClient_get url_ with
  | Some content_ =>
      let st1 :=
        set_results
          (results (self st) ++ [{| url := url_; content := content_ |}]) st in
      if depth queueItem <? maxDepth (self st1) then
        match extractLinks URL_parse URL_resolve content_ url_ with
        | Some newLinks =>
            let st2 :=
              set_world
                (log (LogDebug (length newLinks) url_ (depth queueItem + 1))
                   (world st1)) st1 in
            foldl enqueue st2 newLinks
        | None => set_world (log (LogError url_) (world st1)) st1
        end
      else st1
  | None => set_world (log (LogError url_) (world st)) st
  end.

(** [batch.map(url => this.processUrl({ url, depth: 0 }))]: every call
    runs to its [await] before the next one starts; the result carries
    the items whose fetch is in flight. *)
Definition startAll (batch : list string) (st : State)
  : State * list ScrapeItem :=
  foldl
    (λ acc url_,
       let queueItem := {| item_url := url_; depth := 0 |} in
       let '(st1, issued) := processUrl_start queueItem (fst acc) in
       (st1, if issued then snd acc ++ [queueItem] else snd acc))
    (st, []) batch.

(** [await Promise.allSettled(promises)] *)
Definition fetchBatch (batch : list string) (st : State) : State :=
  let '(st1, inflight) := startAll batch st in
  foldl processUrl_resume st1 (fetch_settle inflight).

(** *** [processBatch] *)

(** The synchronous part of the ingest calls of a batch. *)
Definition ingestStart (sch : ScrapeSchema) (batch : list ScrapeResult)
    (w : World) : World * list (ScrapeResult * string) :=
  foldl
    (λ acc result,
       match processScrapedResult_start result sch (fst acc) with
       | (w1, Some markdown) => (w1, snd acc ++ [(result, markdown)])
       | (w1, None) => (w1, snd acc)
       end)
    (w, []) batch.

Definition ingestBatch (sch : ScrapeSchema) (enc : EmbedEncoder)
    (batch : list ScrapeResult) (w : World) : World :=
  let '(w1, suspended) := ingestStart sch batch w in
  foldl
    (λ w2 p,
       fst (processScrapedResult_resume generateId Date_now
              (fst p) enc (snd p) w2))
    w1 (ingest_settle suspended).

(** The rebuild of the queue from its last 10000 members. *)
Definition trim (q : JSSet.t) : JSSet.t :=
  if 10000 <? Z.of_nat (JSSet.size q) then
    let queueArray := JSSet.toArray q in
    let last10k := JSArray.slice_from queueArray (-10000) in
    foldl JSSet.add JSSet.empty last10k
  else q.

Definition processBatch (batchSize : Z) (st : State) : State :=
  let '(batch, rest) := JSArray.splice0 (results (self st)) batchSize in
  let st1 := set_results rest st in
  match encoder (self st1), schema (self st1) with
  | Some enc, Some sch =>
      let st2 := set_world (ingestBatch sch enc batch (world st1)) st1 in
      let st3 := set_results [] st2 in
      set_queue (trim (queue (self st3))) st3
  | _, _ => st1
  end.

(** *** [scrapeAll] *)

(** The assignments before the loop. *)
Definition scrapeAll_enter (baseUrl : string) (maxDepth_ : Z)
    (encoder_ : option EmbedEncoder) (schema_ : option ScrapeSchema)
    (st : State) : State :=
  {| self := {| visited := visited (self st);
                queue := JSSet.add (queue (self st)) baseUrl;
                encoder := encoder_; schema := schema_;
                results := results (self st); maxDepth := maxDepth_ |};
     world := world st |}.

(** The guard of the two calls of [processBatch]. *)
Definition ingesting (st : State) : bool :=
  is_some (encoder (self st)) && is_some (schema (self st)).

(** One turn of the [while] loop. *)
Definition iteration (concurrency batchSize : Z) (st : State) : State :=
  let batch := JSArray.slice (JSSet.toArray (queue (self st))) 0 concurrency in
  let st1 := set_queue (foldl JSSet.delete (queue (self st)) batch) st in
  let st2 := fetchBatch batch st1 in
  if (batchSize <=? Z.of_nat (length (results (self st2)))) && ingesting st2
  then processBatch batchSize st2 else st2.

(** The first half of a turn of the loop: the batch is taken off the queue
    and its fetches have settled. *)
Definition fetch_phase (concurrency : Z) (st : State) : State :=
  let batch := JSArray.slice (JSSet.toArray (queue (self st))) 0 concurrency in
  fetchBatch batch
    (set_queue (foldl JSSet.delete (queue (self st)) batch) st).

(** The [while] loop; [None] when [fuel] turns do not empty the queue. *)
Fixpoint scrapeAll_loop (fuel : nat) (concurrency batchSize : Z)
    (st : State) : option State :=
  if (0 <? JSSet.size (queue (self st)))%nat then
    match fuel with
    | O => None
    | S fuel' =>
        scrapeAll_loop fuel' concurrency batchSize
          (iteration concurrency batchSize st)
    end
  else Some st.

(** The final flush and the returned array. *)
Definition scrapeAll_exit (st : State) : list ScrapeResult * State :=
  let st1 :=
    if (0 <? length (results (self st)))%nat && ingesting st
    then processBatch (Z.of_nat (length (results (self st)))) st else st in
  (results (self st1), st1).

Definition scrapeAll (fuel : nat) (baseUrl : string) (maxDepth_ : Z)
    (concurrency batchSize : Z) (encoder_ : option EmbedEncoder)
    (schema_ : option ScrapeSchema) (st : State)
  : option (list ScrapeResult * State) :=
  scrapeAll_exit <$>
    scrapeAll_loop fuel concurrency batchSize
      (scrapeAll_enter baseUrl maxDepth_ encoder_ schema_ st).

End Scraper.

(** ** A small instance of the parameters

    Enough of the platform to run the crawler on concrete sites: absolute
    [http] and [https] URLs, and references that are absolute, host-relative
    (a leading slash) or relative to the directory of the base. *)

Module Sample.

Import JSString.

Definition scheme_of (s : string) : option (string * string) :=
  if JSString.startsWith (JSString.toLowerCase s) "https://"
  then Some ("https://", String.substring 8 (String.length s - 8) s)
  else if JSString.startsWith (JSString.toLowerCase s) "http://"
  then Some ("http://", String.substring 7 (String.length s - 7) s)
  else None.

Definition URL_parse (s : string) : option URL :=
  match scheme_of s with
  | Some (scheme, rest) =>
      let '(authority, tail) := break (is_one_of "/?#") rest in
      let '(path, suffix) := break (is_one_of "?#") tail in
      let path' := if (String.length path =? 0)%nat then "/" else path in
      let host := JSString.toLowerCase authority in
      if (String.length host =? 0)%nat then None
      else Some {| href := scheme +:+ host +:+ path' +:+ suffix;
                   hostname := fst (break (is_one_of ":") host);
                   pathname := path' |}
  | None => None
  end.

(** The text up to and including the last slash of a path. *)
Definition directory (p : string) : string :=
  String.rev (snd (break (is_one_of "/") (String.rev p))).

(** Scheme and authority of a parsed URL. *)
Definition origin (base : URL) : string :=
  match scheme_of (href base) with
  | Some (scheme, rest) => scheme +:+ fst (break (is_one_of "/?#") rest)
  | None => EmptyString
  end.

Definition URL_resolve (h : string) (base : URL) : option URL :=
  match URL_parse h with
  | Some u => Some u
  | None =>
      if JSString.startsWith h "/" then URL_parse (origin base +:+ h)
      else if JSString.includes (fst (break (is_one_of "/?#") h)) ":"
      then Some {| href := h; hostname := EmptyString; pathname := h |}
      else URL_parse (origin base +:+ directory (pathname base) +:+ h)
  end.

(** Promises settle in the order they were started. *)
Definition in_order {A : Type} (l : list A) : list A := l.

Definition generateId (n : nat) : string :=
  String (ascii_of_nat (97 + n)) EmptyString.

Definition Date_now (n : nat) : Z := 1700000000000 + Z.of_nat n.

(** A transform that keeps a page as it is; a page without a main
    element has no content container. *)
Definition keep : ScrapeSchema :=
  {| schema_url := [];
     parse := λ c, if JSString.includes c "<main>" then Some c else None |}.

(** An encoder giving every text the same two-dimensional vector. *)
Definition flat : EmbedEncoder :=
  {| extract := λ sentences,
       Some {| count := Z.of_nat (length sentences);
               data := (λ _, [1%Q; 0%Q]) <$> sentences;
               dimensions := 2 |} |}.

Definition fresh : State := {| self := ScraperUtils_new; world := World_new |}.

(** A site: the pages that can be fetched, by URL. *)
Definition Site := list (string * string).

Fixpoint fetch (site : Site) (u : string) : option string :=
  match site with
  | [] => None
  | (u', body) :: site' =>
      if bool_decide (u' = u) then Some body else fetch site' u
  end.

(** An index page linking to a second page, to another host and to a
    fragment of the second page; the second page has no main element. *)
Definition handbook : Site :=
  [("https://a.test/index.html",
    "<main><a href='page1.html'>1</a> <a href='https://ext.test/x.html'>x</a> <a href='https://a.test/page1.html#frag'>f</a></main>");
   ("https://a.test/page1.html", "<nav><a href='/index.html'>up</a></nav>")].

(** Four pages in a row, each linking to the next. *)
Definition chain : Site :=
  [("https://a.test/", "<main><a href='/d1'>1</a></main>");
   ("https://a.test/d1", "<main><a href='/d2'>2</a></main>");
   ("https://a.test/d2", "<main><a href='/d3'>3</a></main>");
   ("https://a.test/d3", "<main>end</main>")].

(** A page linking to two leaves. *)
Definition fan : Site :=
  [("https://a.test/", "<main><a href='/a'>a</a> <a href='/b'>b</a></main>");
   ("https://a.test/a", "<main>a</main>");
   ("https://a.test/b", "<main>b</main>")].

(** A page linking to five others, one of which cannot be fetched. *)
Definition gappy : Site :=
  [("https://a.test/", "<main><a href='/p1'>1</a> <a href='/p2'>2</a> <a href='/p3'>3</a> <a href='/p4'>4</a> <a href='/p5'>5</a></main>");
   ("https://a.test/p1", "<main>1</main>");
   ("https://a.test/p2", "<main>2</main>");
   ("https://a.test/p4", "<main>4</main>");
   ("https://a.test/p5", "<main>5</main>")].

(** An instance in the middle of a crawl: one page buffered, two URLs
    pending. *)
Definition two_pending : State :=
  {| self := {| visited := ["https://a.test/"];
                queue := ["https://a.test/a"; "https://a.test/b"];
                encoder := Some flat; schema := Some keep;
                results := [{| url := "https://a.test/";
                               content := "<main>home</main>" |}];
                maxDepth := 3 |};
     world := World_new |}.

(** [scrapeAll] on a site, promises settling in order. *)
Definition crawl (site : Site) (fuel : nat) (baseUrl : string)
    (maxDepth_ concurrency batchSize : Z) (encoder_ : option EmbedEncoder)
    (schema_ : option ScrapeSchema) (st : State)
  : option (list ScrapeResult * State) :=
  scrapeAll URL_parse URL_resolve (fetch site) in_order in_order
    generateId Date_now fuel baseUrl maxDepth_ concurrency batchSize
    encoder_ schema_ st.

(** What a test looks at in the outcome of a crawl: the array returned,
    the fetch trace, the texts handed to the encoder, the sources of the
    stored rows and the buffer left behind. *)
Definition observe (r : option (list ScrapeResult * State))
  : option (list ScrapeResult * list string * list (list string)
            * list string * list ScrapeResult) :=
  match r with
  | Some (out, st) =>
      Some (out, fetches (world st), extracts (world st),
            source <$> embedding (world st), results (self st))
  | None => None
  end.

(** The state after the first [n] turns of the loop. *)
Definition turns (site : Site) (n : nat) (baseUrl : string)
    (maxDepth_ concurrency batchSize : Z) (encoder_ : option EmbedEncoder)
    (schema_ : option ScrapeSchema) : State :=
  Nat.iter n
    (iteration URL_parse URL_resolve (fetch site) in_order in_order
       generateId Date_now concurrency batchSize)
    (scrapeAll_enter baseUrl maxDepth_ encoder_ schema_ fresh).

(** The handbook crawl after the fetch phase of its first turn. *)
Definition after_first_fetch : State :=
  fetch_phase URL_parse URL_resolve (fetch handbook) in_order 10
    (scrapeAll_enter "https://a.test/index.html" 1 None None fresh).

(** The URLs the handbook pages link to. *)
Definition handbook_links : list string :=
  ["https://a.test/page1.html"; "https://a.test/index.html"].

End Sample.

(** ** The eligibility rule in the words of the specification *)

Module Spec.

Import JSString.

(** The last segment of a path: the text after its last slash. *)
Definition last_segment (p : string) : string :=
  String.rev (fst (break (is_one_of "/") (String.rev p))).

(** The extension of a path: the text after the last dot of its last
    segment, when that segment has a dot. *)
Definition extension (p : string) : option string :=
  let seg := last_segment p in
  if includes seg "." then
    Some (String.rev (fst (break (is_one_of ".") (String.rev seg))))
  else None.

(** No fragment, and a path without extension or with extension [html]
    or [htm] in either case. *)
Definition eligible (URL_parse : string -> option URL) (url : string) : bool :=
  negb (includes url "#") &&
  match URL_parse url with
  | Some u =>
      match extension (pathname u) with
      | None => true
      | Some e => bool_decide (toLowerCase e ∈ ["html"; "htm"])
      end
  | None => false
  end.

End Spec.


(** ** Reachable states *)

Section Reachable.

Variable URL_parse : string -> option URL.
Variable URL_resolve : string -> URL -> option URL.
Variable fetchClient_get : string -> option string.
Variable fetch_settle : list ScrapeItem -> list ScrapeItem.
Variable ingest_settle :
  list (ScrapeResult * string) -> list (ScrapeResult * string).
Variable generateId : nat -> string.
Variable Date_now : nat -> Z.

Local Abbreviation fetch_phase :=
  (fetch_phase URL_parse URL_resolve fetchClient_get fetch_settle).
Local Abbreviation processBatch :=
  (processBatch ingest_settle generateId Date_now).

(** The states one instance goes through, observed between the phases of
    its work: created when nothing has been fetched yet, then any number of
    [scrapeAll] calls with any arguments, each a sequence of fetch phases
    and calls of [processBatch]. *)
Inductive reachable : State -> Prop :=
  | reach_new w :
      fetches w = [] -> reachable {| self := ScraperUtils_new; world := w |}
  | reach_enter st baseUrl maxDepth_ encoder_ schema_ :
      reachable st ->
      reachable (scrapeAll_enter baseUrl maxDepth_ encoder_ schema_ st)
  | reach_fetch st concurrency :
      reachable st -> reachable (fetch_phase concurrency st)
  | reach_ingest st batchSize :
      reachable st -> reachable (processBatch batchSize st).

(** The states of one [scrapeAll] call with seed [baseUrl], entered at
    [st0], observed in the same way. *)
Inductive running (st0 : State) (baseUrl : string) : State -> Prop :=
  | run_enter maxDepth_ encoder_ schema_ :
      running st0 baseUrl
        (scrapeAll_enter baseUrl maxDepth_ encoder_ schema_ st0)
  | run_fetch st concurrency :
      running st0 baseUrl st ->
      running st0 baseUrl (fetch_phase concurrency st)
  | run_ingest st batchSize :
      running st0 baseUrl st ->
      running st0 baseUrl (processBatch batchSize st).

End Reachable.

(** [hostname] of [new URL(u)], when [u] parses. *)
Definition hostname_of (URL_parse : string -> option URL) (u : string)
  : option string :=
  hostname <$> URL_parse u.


(** ** Notions used to state the properties of the crawl *)

(** The URLs of a batch whose fetch is issued: those not visited, each at
    its first occurrence. *)
Fixpoint fresh_of (v : JSSet.t) (batch : list string) : list string :=
  match batch with
  | [] => []
  | u :: batch' =>
      if JSSet.has v u then fresh_of v batch'
      else u :: fresh_of (JSSet.add v u) batch'
  end.

(** The item [scrapeAll] builds for a URL of a batch. *)
Definition item_of (u : string) : ScrapeItem := {| item_url := u; depth := 0 |}.

(** The state once the fetches of [issued] have been issued and the
    visited set has become [v']. *)
Definition started (v' : JSSet.t) (issued : list string) (st : State) : State :=
  {| self := {| visited := v'; queue := queue (self st);
                encoder := encoder (self st); schema := schema (self st);
                results := results (self st);
                maxDepth := maxDepth (self st) |};
     world := {| fetches := fetches (world st) ++ issued;
                 embedding := embedding (world st);
                 extracts := extracts (world st);
                 logs := logs (world st); ticks := ticks (world st) |} |}.

(** The page result a settled fetch leaves in the buffer, if any. *)
Definition produced (fetchClient_get : string -> option string)
    (queueItem : ScrapeItem) : option ScrapeResult :=
  (λ c, {| url := item_url queueItem; content := c |})
    <$> fetchClient_get (item_url queueItem).

(** What a step of the crawl leaves alone when it only touches the queue,
    the buffer and the log. *)
Definition steady (st st' : State) : Prop :=
  visited (self st') = visited (self st)
  ∧ encoder (self st') = encoder (self st)
  ∧ schema (self st') = schema (self st)
  ∧ maxDepth (self st') = maxDepth (self st)
  ∧ fetches (world st') = fetches (world st).

(** The queue after the [forEach] over the links of a page. *)
Definition enqueue_all (v q : JSSet.t) (links : list string) : JSSet.t :=
  foldl (λ q' link, if JSSet.has v link then q' else JSSet.add q' link) q links.

(** The links a settled fetch offers to the queue. *)
Definition links_of (URL_parse : string -> option URL)
    (URL_resolve : string -> URL -> option URL)
    (fetchClient_get : string -> option string)
    (maxDepth_ : Z) (queueItem : ScrapeItem) : list string :=
  match fetchClient_get (item_url queueItem) with
  | Some c =>
      if depth queueItem <? maxDepth_
      then default [] (extractLinks URL_parse URL_resolve c (item_url queueItem))
      else []
  | None => []
  end.


(** The URLs of the queue and the URLs fetched since [st0] have the host
    of [seed]. *)
Definition on_host (URL_parse : string -> option URL) (st0 : State) (seed : string) (st : State) : Prop :=
  (forall u, u ∈ queue (self st) ->
     hostname_of URL_parse u = hostname_of URL_parse seed)
  ∧ (forall u, u ∈ fetches (world st) ->
       u ∈ fetches (world st0)
       ∨ hostname_of URL_parse u = hostname_of URL_parse seed).

(** How many URLs of [U] are not visited yet. *)
Definition unvisited (U : list string) (st : State) : nat :=
  length (filter (λ u, u ∉ visited (self st)) U).

From Stdlib Require Import Lqa.

(** ** Further notions for the crawl and the ingest *)

(** The source and the text of a stored row. *)
Definition origin_of (e : EmbeddingStored) : string * string :=
  (source e, stored_content e).

(** The suspended ingest calls whose embedding is computed. *)
Definition embedded (enc : EmbedEncoder) (l : list (ScrapeResult * string))
  : list (ScrapeResult * string) :=
  filter (λ p, is_some (extract enc [snd p]) = true) l.

(** The results of a batch the transform gives a text for, with that
    text. *)
Definition parsable (sch : ScrapeSchema) (batch : list ScrapeResult)
  : list (ScrapeResult * string) :=
  omap (λ r, match parse sch (content r) with
             | Some md => if (String.length md =? 0)%nat then None
                          else Some (r, md)
             | None => None
             end) batch.

(** The buffer and the fetch trace have grown from those of [st] by the
    page results of the fetches made since. *)
Definition grown (fetchClient_get : string -> option string)
    (st st' : State) : Prop :=
  exists pages newf,
    results (self st') = results (self st) ++ pages
    ∧ fetches (world st') = fetches (world st) ++ newf
    ∧ pages ≡ₚ omap (produced fetchClient_get) (item_of <$> newf).

(** The row [processScrapedResult] builds for a suspended call whose id and
    timestamp are drawn at tick [n], when the encoder answers. *)
Definition stored_for (generateId : nat -> string) (Date_now : nat -> Z)
    (enc : EmbedEncoder) (n : nat) (p : ScrapeResult * string)
  : option EmbeddingStored :=
  match extract enc [snd p] with
  | Some embeddingResult =>
      Some {| id := generateId n; source := url (fst p);
              stored_content := snd p;
              vector := default [] (head (data embeddingResult));
              timestamp := Date_now n |}
  | None => None
  end.

(** The page and the text of a suspended call. *)
Definition page_text (p : ScrapeResult * string) : string * string :=
  (url (fst p), snd p).

(** No id still to be drawn is stored. *)
Definition ids_are_new (generateId : nat -> string) (w : World) : Prop :=
  forall n, (ticks w <= n)%nat -> generateId n ∉ id <$> embedding w.

(** A generator that never repeats: the id drawn at tick [n] is [n]
    strokes. *)
Fixpoint tally_id (n : nat) : string :=
  match n with
  | O => EmptyString
  | S n' => String "i" (tally_id n')
  end.
(** * Properties *)

(** ** Sets and arrays *)

Lemma JSSet_has_true (s : JSSet.t) (x : string) :
  JSSet.has s x = true <-> x ∈ s.
Proof. unfold JSSet.has. apply bool_decide_eq_true. Qed.

Lemma JSSet_has_false (s : JSSet.t) (x : string) :
  JSSet.has s x = false <-> x ∉ s.
Proof. unfold JSSet.has. apply bool_decide_eq_false. Qed.

Lemma JSSet_elem_of_add (s : JSSet.t) (x y : string) :
  y ∈ JSSet.add s x <-> y ∈ s ∨ y = x.
Proof.
  unfold JSSet.add. destruct (JSSet.has s x) eqn:E.
  - apply JSSet_has_true in E. split; [auto|]. intros [?| ->]; done.
  - rewrite elem_of_app, list_elem_of_singleton. done.
Qed.

Lemma JSSet_NoDup_add (s : JSSet.t) (x : string) :
  NoDup s -> NoDup (JSSet.add s x).
Proof.
  intros Hs. unfold JSSet.add. destruct (JSSet.has s x) eqn:E; [done|].
  apply JSSet_has_false in E. apply NoDup_app. split_and!; [done| |].
  - intros y Hy Hy'. apply list_elem_of_singleton in Hy'. by subst.
  - apply NoDup_singleton.
Qed.

Lemma JSSet_elem_of_delete (s : JSSet.t) (x y : string) :
  y ∈ JSSet.delete s x <-> y ∈ s ∧ y ≠ x.
Proof. unfold JSSet.delete. rewrite list_elem_of_filter. tauto. Qed.

Lemma JSSet_NoDup_delete (s : JSSet.t) (x : string) :
  NoDup s -> NoDup (JSSet.delete s x).
Proof. apply NoDup_filter. Qed.

Lemma JSSet_length_delete (s : JSSet.t) (x : string) :
  (length (JSSet.delete s x) <= length s)%nat.
Proof. apply length_filter. Qed.


Lemma JSSet_foldl_add_subseteq (s l : list string) (y : string) :
  y ∈ foldl JSSet.add s l <-> y ∈ s ∨ y ∈ l.
Proof.
  revert s. induction l as [|x l IH]; intros s; simpl.
  - rewrite elem_of_nil. tauto.
  - rewrite IH, JSSet_elem_of_add, elem_of_cons. tauto.
Qed.

Lemma JSSet_foldl_add_NoDup (s l : list string) :
  NoDup s -> NoDup (foldl JSSet.add s l).
Proof.
  revert s. induction l as [|x l IH]; intros s Hs; simpl; [done|].
  apply IH. by apply JSSet_NoDup_add.
Qed.

Lemma JSSet_foldl_delete (s l : list string) (y : string) :
  y ∈ foldl JSSet.delete s l <-> y ∈ s ∧ y ∉ l.
Proof.
  revert s. induction l as [|x l IH]; intros s; simpl.
  - rewrite elem_of_nil. tauto.
  - rewrite IH, JSSet_elem_of_delete, not_elem_of_cons. tauto.
Qed.

Lemma JSSet_foldl_delete_NoDup (s l : list string) :
  NoDup s -> NoDup (foldl JSSet.delete s l).
Proof.
  revert s. induction l as [|x l IH]; intros s Hs; simpl; [done|].
  apply IH. by apply JSSet_NoDup_delete.
Qed.

Lemma JSSet_foldl_delete_length (s l : list string) :
  (length (foldl JSSet.delete s l) <= length s)%nat.
Proof.
  revert s. induction l as [|x l IH]; intros s; simpl; [done|].
  etrans; [apply IH|apply JSSet_length_delete].
Qed.

(** ** The frontier trim *)



Lemma trim_subseteq (q : JSSet.t) (y : string) : y ∈ trim q -> y ∈ q.
Proof.
  unfold trim. destruct (10000 <? _); [|done].
  rewrite JSSet_foldl_add_subseteq. unfold JSSet.empty, JSArray.slice_from.
  intros [H|H]; [by apply elem_of_nil in H|].
  eapply elem_of_sublist; [done|apply sublist_drop].
Qed.

Lemma trim_NoDup (q : JSSet.t) : NoDup q -> NoDup (trim q).
Proof.
  intros Hq. unfold trim. destruct (10000 <? _); [|done].
  apply JSSet_foldl_add_NoDup. constructor.
Qed.

Section Ingest.

Variable ingest_settle :
  list (ScrapeResult * string) -> list (ScrapeResult * string).
Variable generateId : nat -> string.
Variable Date_now : nat -> Z.

Local Abbreviation processBatch :=
  (processBatch ingest_settle generateId Date_now).

Lemma processBatch_queue (batchSize : Z) (st : State) :
  is_some (encoder (self st)) && is_some (schema (self st)) = true ->
  queue (self (processBatch batchSize st)) = trim (queue (self st)).
Proof.
  intros H. unfold processBatch.
  destruct (JSArray.splice0 _ _) as [batch rest]. simpl.
  destruct (encoder (self st)), (schema (self st)); done.
Qed.

Lemma processBatch_results (batchSize : Z) (st : State) :
  is_some (encoder (self st)) && is_some (schema (self st)) = true ->
  results (self (processBatch batchSize st)) = [].
Proof.
  intros H. unfold processBatch.
  destruct (JSArray.splice0 _ _) as [batch rest]. simpl.
  destruct (encoder (self st)), (schema (self st)); done.
Qed.

Lemma processBatch_visited (batchSize : Z) (st : State) :
  visited (self (processBatch batchSize st)) = visited (self st).
Proof.
  unfold processBatch.
  destruct (JSArray.splice0 _ _) as [batch rest]. simpl.
  destruct (encoder (self st)), (schema (self st)); done.
Qed.

Lemma processBatch_config (batchSize : Z) (st : State) :
  encoder (self (processBatch batchSize st)) = encoder (self st)
  ∧ schema (self (processBatch batchSize st)) = schema (self st)
  ∧ maxDepth (self (processBatch batchSize st)) = maxDepth (self st).
Proof.
  unfold processBatch.
  destruct (JSArray.splice0 _ _) as [batch rest]. simpl.
  destruct (encoder (self st)) eqn:E, (schema (self st)) eqn:E'; simpl;
    rewrite ?E, ?E'; done.
Qed.

Lemma ingestStart_fetches (sch : ScrapeSchema) (batch : list ScrapeResult)
    (w : World) (acc : list (ScrapeResult * string)) :
  fetches
    (fst (foldl
            (λ acc result,
               match processScrapedResult_start result sch (fst acc) with
               | (w1, Some markdown) => (w1, snd acc ++ [(result, markdown)])
               | (w1, None) => (w1, snd acc)
               end) (w, acc) batch)) = fetches w.
Proof.
  revert w acc. induction batch as [|r batch IH]; intros w acc; simpl; [done|].
  unfold processScrapedResult_start at 2.
  destruct (parse sch (content r)) as [md|]; [|apply IH].
  destruct (String.length md =? 0)%nat; rewrite IH; done.
Qed.

Lemma ingestBatch_fetches (sch : ScrapeSchema) (enc : EmbedEncoder)
    (batch : list ScrapeResult) (w : World) :
  fetches (ingestBatch ingest_settle generateId Date_now sch enc batch w)
  = fetches w.
Proof.
  unfold ingestBatch, ingestStart.
  pose proof (ingestStart_fetches sch batch w []) as H.
  destruct (foldl _ _ batch) as [w1 suspended]. simpl in H. rewrite <- H.
  generalize (ingest_settle suspended). intros l. clear H. revert w1.
  induction l as [|p l IH]; intros w1; simpl; [done|].
  rewrite IH. unfold processScrapedResult_resume.
  destruct (extract enc _); [|done].
  destruct (Database.insertVector _ _ _ _ _ _); done.
Qed.

Lemma processBatch_fetches (batchSize : Z) (st : State) :
  fetches (world (processBatch batchSize st)) = fetches (world st).
Proof.
  unfold processBatch.
  destruct (JSArray.splice0 _ _) as [batch rest]. simpl.
  destruct (encoder (self st)), (schema (self st)); try done.
  simpl. apply ingestBatch_fetches.
Qed.


End Ingest.

(** ** Transform failure *)

(** C9. When the transform returns [null] or the empty string,
    [processScrapedResult] returns normally and leaves the world as it was:
    the encoder is not called, no row is stored, nothing is logged. *)
Theorem processScrapedResult_skips_unparsed (generateId : nat -> string)
    (Date_now : nat -> Z) (result : ScrapeResult) (schema_ : ScrapeSchema)
    (encoder_ : EmbedEncoder) (w : World) :
  parse schema_ (content result) = None
  ∨ parse schema_ (content result) = Some EmptyString ->
  processScrapedResult generateId Date_now result schema_ encoder_ w
  = (w, Fulfilled).
Proof.
  intros [H|H]; unfold processScrapedResult, processScrapedResult_start;
    rewrite H; reflexivity.
Qed.

Lemma processScrapedResult_skips_unparsed_witness :
  processScrapedResult Sample.generateId Sample.Date_now
    {| url := "https://a.test/page1.html"; content := "<nav>menu</nav>" |}
    Sample.keep Sample.flat World_new = (World_new, Fulfilled).
Proof.
  apply processScrapedResult_skips_unparsed. left. reflexivity.
Defined.



(** ** Link eligibility *)

(** The four URLs of the extension rule. *)
Example isValidUrl_guide :
  isValidUrl Sample.URL_parse "https://docs.example.com/guide" = true.
Proof. reflexivity. Qed.

Example isValidUrl_guide_html :
  isValidUrl Sample.URL_parse "https://docs.example.com/guide.HTML" = true.
Proof. reflexivity. Qed.

Example isValidUrl_guide_pdf :
  isValidUrl Sample.URL_parse "https://docs.example.com/guide.pdf" = false.
Proof. reflexivity. Qed.

Example isValidUrl_guide_section :
  isValidUrl Sample.URL_parse "https://docs.example.com/guide#section" = false.
Proof. reflexivity. Qed.

Example hrefs_sample :
  Regex.hrefs "<a HREF='/a.html'>a</a> <a href='b'>b</a> <a href=''>" =
  ["/a.html"; "b"].
Proof. reflexivity. Qed.

Example extension_guide_html : Spec.extension "/docs/guide.html" = Some "html".
Proof. reflexivity. Qed.

Example extension_dotted_directory : Spec.extension "/v1.2/guide" = None.
Proof. reflexivity. Qed.

(** *** What [isValidUrl] accepts is eligible *)

Local Abbreviation chars := list_ascii_of_string.

Lemma chars_inj (s t : string) : chars s = chars t -> s = t.
Proof.
  intros H. rewrite <- (string_of_list_ascii_of_string s),
    <- (string_of_list_ascii_of_string t). by rewrite H.
Qed.

Lemma chars_rev_app (s t : string) :
  chars (String.rev_app s t) = reverse (chars s) ++ chars t.
Proof.
  revert t. induction s as [|c s IH]; intros t; simpl; [done|].
  rewrite IH, reverse_cons, <- app_assoc. done.
Qed.

Lemma chars_rev (s : string) : chars (String.rev s) = reverse (chars s).
Proof. unfold String.rev. by rewrite chars_rev_app, app_nil_r. Qed.

Lemma rev_rev (s : string) : String.rev (String.rev s) = s.
Proof. apply chars_inj. by rewrite !chars_rev, reverse_involutive. Qed.

Lemma chars_toLowerCase (s : string) :
  chars (JSString.toLowerCase s) = JSString.lower <$> chars s.
Proof. induction s as [|c s IH]; simpl; [done|]. by rewrite IH. Qed.

Lemma rev_toLowerCase (s : string) :
  String.rev (JSString.toLowerCase s) = JSString.toLowerCase (String.rev s).
Proof.
  apply chars_inj.
  by rewrite chars_rev, !chars_toLowerCase, chars_rev, fmap_reverse.
Qed.

Lemma includes_char (s : string) (c : ascii) :
  JSString.includes s (String c EmptyString) = true <-> c ∈ chars s.
Proof.
  induction s as [|c' s IH]; simpl.
  - rewrite elem_of_nil. split; [discriminate|done].
  - rewrite elem_of_cons, <- IH, orb_true_iff.
    destruct (ascii_dec c c') as [->|Hne].
    + assert (String.prefix EmptyString s = true) as -> by (by destruct s).
      tauto.
    + split; [intros [?|?]; [discriminate|tauto]|].
      intros [?|?]; [done|tauto].
Qed.

Lemma break_fst_elem (stop : ascii -> bool) (s : string) (c : ascii) :
  c ∈ chars (fst (JSString.break stop s)) -> c ∈ chars s.
Proof.
  induction s as [|c' s IH]; simpl; [done|].
  destruct (stop c'); simpl; [by intros ?%elem_of_nil|].
  destruct (JSString.break stop s) as [a b]. simpl in *.
  rewrite !elem_of_cons. tauto.
Qed.

Lemma lower_dot (c : ascii) : JSString.lower c = "."%char -> c = "."%char.
Proof.
  destruct c as [[] [] [] [] [] [] [] []]; vm_compute; congruence.
Qed.

Lemma lower_letter (c x : ascii) :
  JSString.lower c = x -> x ∈ chars "html" ->
  JSString.is_one_of "/" c = false ∧ JSString.is_one_of "." c = false.
Proof.
  intros <- Hx. simpl in Hx.
  repeat (apply elem_of_cons in Hx as [Hx|Hx]);
    try (by apply elem_of_nil in Hx);
    revert Hx; destruct c as [[] [] [] [] [] [] [] []]; vm_compute;
    (discriminate || (intros _; split; reflexivity)).
Qed.

Lemma extension_none (p : string) :
  JSString.includes (JSString.toLowerCase p) "." = false ->
  Spec.extension p = None.
Proof.
  intros H. unfold Spec.extension.
  destruct (JSString.includes (Spec.last_segment p) ".") eqn:E; [|done].
  exfalso. apply includes_char in E. unfold Spec.last_segment in E.
  rewrite chars_rev, elem_of_reverse in E.
  apply break_fst_elem in E. rewrite chars_rev, elem_of_reverse in E.
  assert (JSString.includes (JSString.toLowerCase p) "." = true) as H'.
  { apply includes_char. rewrite chars_toLowerCase.
    apply list_elem_of_fmap. by exists "."%char. }
  congruence.
Qed.

Lemma prefix_cons (c d : ascii) (t s : string) :
  String.prefix (String c t) (String d s) = true ->
  c = d ∧ String.prefix t s = true.
Proof. simpl. destruct (ascii_dec c d); [done|discriminate]. Qed.

(** Peels the first character off a lower-cased string known to start
    with a given text. *)
Ltac peel H c q' E :=
  match type of H with
  | String.prefix _ (JSString.toLowerCase ?q) = true =>
      destruct q as [|c q']; [discriminate H|];
      change (JSString.toLowerCase (String c q'))
        with (String (JSString.lower c) (JSString.toLowerCase q')) in H;
      apply prefix_cons in H as [E H]
  end.

Lemma extension_html (p : string) :
  JSString.endsWith (JSString.toLowerCase p) ".html" = true ->
  exists e, Spec.extension p = Some e ∧ JSString.toLowerCase e = "html".
Proof.
  unfold JSString.endsWith. rewrite rev_toLowerCase.
  change (String.rev ".html") with "lmth.".
  unfold Spec.extension, Spec.last_segment. intros H.
  peel H c1 r1 E1. peel H c2 r2 E2. peel H c3 r3 E3. peel H c4 r4 E4.
  peel H c5 r5 E5.
  destruct (lower_letter c1 "l") as [S1 D1]; [done|simpl; repeat constructor|].
  destruct (lower_letter c2 "m") as [S2 D2]; [done|simpl; repeat constructor|].
  destruct (lower_letter c3 "t") as [S3 D3]; [done|simpl; repeat constructor|].
  destruct (lower_letter c4 "h") as [S4 D4]; [done|simpl; repeat constructor|].
  assert (c5 = "."%char) as -> by (by apply lower_dot).
  cbn [JSString.break]. rewrite S1, S2, S3, S4.
  change (JSString.is_one_of "/" ".") with false. cbv iota.
  destruct (JSString.break (JSString.is_one_of "/") r5) as [a b].
  cbn [fst].
  set (X := String c1 (String c2 (String c3 (String c4 (String "." a))))).
  assert (JSString.includes (String.rev X) "." = true) as ->.
  { apply includes_char. rewrite chars_rev, elem_of_reverse. subst X. simpl.
    repeat constructor. }
  rewrite rev_rev. subst X. cbn [JSString.break]. rewrite D1, D2, D3, D4.
  change (JSString.is_one_of "." ".") with true. cbv iota. cbn [fst].
  eexists. split; [reflexivity|].
  cbn [String.rev String.rev_app JSString.toLowerCase]. congruence.
Qed.

Lemma extension_htm (p : string) :
  JSString.endsWith (JSString.toLowerCase p) ".htm" = true ->
  exists e, Spec.extension p = Some e ∧ JSString.toLowerCase e = "htm".
Proof.
  unfold JSString.endsWith. rewrite rev_toLowerCase.
  change (String.rev ".htm") with "mth.".
  unfold Spec.extension, Spec.last_segment. intros H.
  peel H c1 r1 E1. peel H c2 r2 E2. peel H c3 r3 E3. peel H c4 r4 E4.
  destruct (lower_letter c1 "m") as [S1 D1]; [done|simpl; repeat constructor|].
  destruct (lower_letter c2 "t") as [S2 D2]; [done|simpl; repeat constructor|].
  destruct (lower_letter c3 "h") as [S3 D3]; [done|simpl; repeat constructor|].
  assert (c4 = "."%char) as -> by (by apply lower_dot).
  cbn [JSString.break]. rewrite S1, S2, S3.
  change (JSString.is_one_of "/" ".") with false. cbv iota.
  destruct (JSString.break (JSString.is_one_of "/") r4) as [a b].
  cbn [fst].
  set (X := String c1 (String c2 (String c3 (String "." a)))).
  assert (JSString.includes (String.rev X) "." = true) as ->.
  { apply includes_char. rewrite chars_rev, elem_of_reverse. subst X. simpl.
    repeat constructor. }
  rewrite rev_rev. subst X. cbn [JSString.break]. rewrite D1, D2, D3.
  change (JSString.is_one_of "." ".") with true. cbv iota. cbn [fst].
  eexists. split; [reflexivity|].
  cbn [String.rev String.rev_app JSString.toLowerCase]. congruence.
Qed.

(** Whatever [isValidUrl] accepts is eligible in the words of the
    specification, for any implementation of [URL]. *)
Lemma isValidUrl_eligible (URL_parse : string -> option URL) (url : string) :
  isValidUrl URL_parse url = true -> Spec.eligible URL_parse url = true.
Proof.
  unfold isValidUrl, Spec.eligible.
  destruct (JSString.includes url "#"); [discriminate|].
  destruct (URL_parse url) as [u|]; [|discriminate]. simpl.
  unfold validPathname. intros H.
  apply orb_true_iff in H as [H|H]; [apply orb_true_iff in H as [H|H]|].
  - apply extension_html in H as (e & -> & ->). done.
  - apply extension_htm in H as (e & -> & ->). done.
  - apply negb_true_iff in H. by rewrite extension_none.
Qed.

(** C8. [isValidUrl] accepts only eligible URLs but not all of them: it
    refuses a URL without fragment whose path has no extension as soon as a
    directory of the path holds a dot. The seed
    [https://nodejs.org/docs/latest-v24.x/api/] of the first schema is
    eligible by the rule and refused by the code, and so is a page
    [/v1.2/guide]. *)
Theorem isValidUrl_refuses_dotted_directory :
  let seed := "https://nodejs.org/docs/latest-v24.x/api/" in
  let page := "https://docs.example.com/v1.2/guide" in
  (forall URL_parse url,
     isValidUrl URL_parse url = true -> Spec.eligible URL_parse url = true)
  ∧ (option_map pathname (Sample.URL_parse seed)
     = Some "/docs/latest-v24.x/api/"
     ∧ Spec.eligible Sample.URL_parse seed = true
     ∧ isValidUrl Sample.URL_parse seed = false)
  ∧ (option_map pathname (Sample.URL_parse page) = Some "/v1.2/guide"
     ∧ Spec.eligible Sample.URL_parse page = true
     ∧ isValidUrl Sample.URL_parse page = false).
Proof.
  split; [exact isValidUrl_eligible|]. vm_compute. repeat split.
Qed.

(** ** Vector search *)

Section SearchProps.

Import Database.

Variable vec_distance_cosine : list number -> list number -> Q.

Local Abbreviation reported := (reported vec_distance_cosine).
Local Abbreviation nearer := (nearer vec_distance_cosine).


Lemma order_insert_perm (r : Row * Q) (l : list (Row * Q)) :
  order_insert r l ≡ₚ r :: l.
Proof.
  induction l as [|r' l IH]; simpl; [done|].
  destruct (Qle_bool (snd r) (snd r')); [done|].
  rewrite IH. apply Permutation_swap.
Qed.

Lemma order_by_perm (l : list (Row * Q)) : order_by l ≡ₚ l.
Proof.
  induction l as [|r l IH]; simpl; [done|].
  rewrite order_insert_perm. by rewrite IH.
Qed.

Lemma order_insert_sorted (r : Row * Q) (l : list (Row * Q)) :
  StronglySorted by_score l -> StronglySorted by_score (order_insert r l).
Proof.
  induction 1 as [|r' l Hs IH Hall]; simpl.
  - repeat constructor.
  - destruct (Qle_bool (snd r) (snd r')) eqn:E.
    + apply Qle_bool_iff in E. constructor; [by constructor|].
      constructor; [done|]. eapply Forall_impl; [done|].
      intros x Hx. unfold by_score in *. by eapply Qle_trans.
    + assert (by_score r' r) as Hle.
      { unfold by_score. destruct (Qlt_le_dec (snd r') (snd r)) as [?|Hc].
        - by apply Qlt_le_weak.
        - apply Qle_bool_iff in Hc. congruence. }
      constructor; [done|]. rewrite order_insert_perm. by constructor.
Qed.

Lemma order_by_sorted (l : list (Row * Q)) :
  StronglySorted by_score (order_by l).
Proof.
  induction l as [|r l IH]; simpl; [constructor|].
  by apply order_insert_sorted.
Qed.

Lemma StronglySorted_fmap_on {A B : Type} (R : relation A) (R' : relation B)
    (P : A -> Prop) (g : A -> B) (l : list A) :
  (forall a b, P a -> P b -> R a b -> R' (g a) (g b)) ->
  Forall P l -> StronglySorted R l -> StronglySorted R' (g <$> l).
Proof.
  intros HR HP Hs. induction Hs as [|a l Hs IH Hall]; simpl; [constructor|].
  apply Forall_cons in HP as [Ha HP]. constructor; [by apply IH|].
  apply Forall_fmap. rewrite Forall_forall in Hall, HP.
  apply Forall_forall. intros b Hb. simpl. apply HR; auto.
Qed.



End SearchProps.

(** Three stored rows at distances 1/10, 9/10 and 4/10 from the query (the
    distance of a row is taken to be the first component of its vector):
    a search for two returns the rows at 1/10 and 4/10, in that order, with
    similarities 90 and 60. *)
Example searchVectors_three_rows :
  let row i d :=
    {| id := i; source := "https://a.test/"; stored_content := i;
       vector := [d]; timestamp := 0 |} in
  (λ r, (query_id r, similarity r)) <$>
    Database.searchVectors (λ v _, default 0%Q (head v)) [] 2
      [row "near" (1 # 10); row "far" (9 # 10); row "mid" (4 # 10)]
  = [("near", 90); ("mid", 60)].
Proof. reflexivity. Qed.

(** ** The fetch phase of a batch *)

Lemma fresh_of_elem (v : JSSet.t) (batch : list string) (u : string) :
  u ∈ fresh_of v batch <-> u ∈ batch ∧ u ∉ v.
Proof.
  revert v. induction batch as [|x batch IH]; intros v; simpl.
  - rewrite !elem_of_nil. tauto.
  - destruct (JSSet.has v x) eqn:E.
    + apply JSSet_has_true in E. rewrite IH, elem_of_cons.
      split; [tauto|]. intros [[->|?] ?]; tauto.
    + apply JSSet_has_false in E.
      rewrite !elem_of_cons, IH, JSSet_elem_of_add.
      destruct (decide (u = x)) as [->|]; tauto.
Qed.

Lemma fresh_of_NoDup (v : JSSet.t) (batch : list string) :
  NoDup (fresh_of v batch).
Proof.
  revert v. induction batch as [|x batch IH]; intros v; simpl; [constructor|].
  destruct (JSSet.has v x) eqn:E; [apply IH|].
  constructor; [|apply IH]. rewrite fresh_of_elem, JSSet_elem_of_add. tauto.
Qed.


Section CrawlProps.

Variable URL_parse : string -> option URL.
Variable URL_resolve : string -> URL -> option URL.
Variable fetchClient_get : string -> option string.
Variable fetch_settle : list ScrapeItem -> list ScrapeItem.
Variable ingest_settle :
  list (ScrapeResult * string) -> list (ScrapeResult * string).
Variable generateId : nat -> string.
Variable Date_now : nat -> Z.

Local Abbreviation extractLinks := (extractLinks URL_parse URL_resolve).
Local Abbreviation processUrl_resume :=
  (processUrl_resume URL_parse URL_resolve fetchClient_get).
Local Abbreviation fetchBatch :=
  (fetchBatch URL_parse URL_resolve fetchClient_get fetch_settle).
Local Abbreviation processBatch :=
  (processBatch ingest_settle generateId Date_now).
Local Abbreviation iteration :=
  (iteration URL_parse URL_resolve fetchClient_get fetch_settle
     ingest_settle generateId Date_now).
Local Abbreviation scrapeAll_loop :=
  (scrapeAll_loop URL_parse URL_resolve fetchClient_get fetch_settle
     ingest_settle generateId Date_now).
Local Abbreviation scrapeAll_exit :=
  (scrapeAll_exit ingest_settle generateId Date_now).
Local Abbreviation scrapeAll :=
  (scrapeAll URL_parse URL_resolve fetchClient_get fetch_settle
     ingest_settle generateId Date_now).
Local Abbreviation reachable :=
  (reachable URL_parse URL_resolve fetchClient_get fetch_settle
     ingest_settle generateId Date_now).
Local Abbreviation running :=
  (running URL_parse URL_resolve fetchClient_get fetch_settle
     ingest_settle generateId Date_now).

Lemma startAll_from (batch : list string) (st : State)
    (inflight : list ScrapeItem) :
  foldl
    (λ acc url_,
       let queueItem := {| item_url := url_; depth := 0 |} in
       let '(st1, issued) := processUrl_start queueItem (fst acc) in
       (st1, if issued then snd acc ++ [queueItem] else snd acc))
    (st, inflight) batch
  = (started (foldl JSSet.add (visited (self st)) batch)
       (fresh_of (visited (self st)) batch) st,
     inflight ++ (item_of <$> fresh_of (visited (self st)) batch)).
Proof.
  revert st inflight. induction batch as [|u batch IH]; intros st inflight.
  - simpl. rewrite app_nil_r. destruct st as [[] []]. unfold started. simpl.
    by rewrite app_nil_r.
  - simpl. unfold processUrl_start at 2. simpl.
    destruct (JSSet.has (visited (self st)) u) eqn:E; simpl.
    + rewrite IH. assert (JSSet.add (visited (self st)) u = visited (self st))
        as -> by (unfold JSSet.add; by rewrite E). done.
    + rewrite IH. simpl. unfold started. simpl.
      rewrite <- !app_assoc. reflexivity.
Qed.

Lemma startAll_eq (batch : list string) (st : State) :
  startAll batch st
  = (started (foldl JSSet.add (visited (self st)) batch)
       (fresh_of (visited (self st)) batch) st,
     item_of <$> fresh_of (visited (self st)) batch).
Proof. unfold startAll. by rewrite startAll_from. Qed.

Local Abbreviation links_of :=
  (links_of URL_parse URL_resolve fetchClient_get).
Local Abbreviation produced := (produced fetchClient_get).

Lemma steady_refl (st : State) : steady st st.
Proof. by repeat split. Qed.

Lemma steady_trans (st1 st2 st3 : State) :
  steady st1 st2 -> steady st2 st3 -> steady st1 st3.
Proof.
  unfold steady. intros (?&?&?&?&?) (?&?&?&?&?). split_and!; congruence.
Qed.

Lemma enqueue_links (st : State) (links : list string) :
  steady st (foldl enqueue st links)
  ∧ results (self (foldl enqueue st links)) = results (self st)
  ∧ queue (self (foldl enqueue st links))
    = enqueue_all (visited (self st)) (queue (self st)) links.
Proof.
  revert st. induction links as [|link links IH]; intros st; simpl.
  - split_and!; [apply steady_refl|done|done].
  - destruct (IH (enqueue st link)) as (Hs & Hr & Hq).
    assert (steady st (enqueue st link)
            ∧ results (self (enqueue st link)) = results (self st)
            ∧ queue (self (enqueue st link))
              = (if JSSet.has (visited (self st)) link then queue (self st)
                 else JSSet.add (queue (self st)) link)) as (Hs1 & Hr1 & Hq1).
    { unfold enqueue. destruct (JSSet.has _ link);
        (split_and!; [by repeat split|done|done]). }
    split_and!.
    + by eapply steady_trans.
    + congruence.
    + rewrite Hq, Hq1. unfold enqueue_all. destruct Hs1 as [-> _]. done.
Qed.

Lemma processUrl_resume_spec (st : State) (queueItem : ScrapeItem) :
  let st' := processUrl_resume st queueItem in
  steady st st'
  ∧ results (self st') = results (self st) ++ option_list (produced queueItem)
  ∧ queue (self st')
    = enqueue_all (visited (self st)) (queue (self st))
        (links_of (maxDepth (self st)) queueItem).
Proof.
  unfold processUrl_resume, links_of, produced.
  destruct (fetchClient_get (item_url queueItem)) as [c|]; simpl.
  2: { split_and!; [by repeat split|by rewrite app_nil_r|done]. }
  destruct (depth queueItem <? maxDepth (self st)); simpl.
  2: { split_and!; [by repeat split|done|done]. }
  destruct (extractLinks c (item_url queueItem)) as [newLinks|]; simpl.
  2: { split_and!; [by repeat split|done|done]. }
  match goal with |- context [foldl enqueue ?s newLinks] =>
    destruct (enqueue_links s newLinks) as (Hs & Hr & Hq) end.
  split_and!.
  - eapply steady_trans; [|exact Hs]. by repeat split.
  - by rewrite Hr.
  - by rewrite Hq.
Qed.

Lemma resume_all_spec (st : State) (items : list ScrapeItem) :
  let st' := foldl processUrl_resume st items in
  steady st st'
  ∧ results (self st') = results (self st) ++ omap produced items
  ∧ queue (self st')
    = enqueue_all (visited (self st)) (queue (self st))
        (items ≫= links_of (maxDepth (self st))).
Proof.
  revert st. induction items as [|item items IH]; intros st; simpl.
  - split_and!; [apply steady_refl|by rewrite app_nil_r|done].
  - destruct (IH (processUrl_resume st item)) as (Hs & Hr & Hq).
    destruct (processUrl_resume_spec st item) as (Hs1 & Hr1 & Hq1).
    split_and!.
    + by eapply steady_trans.
    + rewrite Hr, Hr1, <- app_assoc. f_equal.
      unfold produced. by destruct (fetchClient_get _).
    + rewrite Hq, Hq1. destruct Hs1 as (-> & _ & _ & -> & _).
      unfold enqueue_all. by rewrite foldl_app.
Qed.

(** The state after the fetch phase of a batch, field by field. *)
Lemma fetchBatch_spec (batch : list string) (st : State) :
  let v := visited (self st) in
  let settled := fetch_settle (item_of <$> fresh_of v batch) in
  let st' := fetchBatch batch st in
  visited (self st') = foldl JSSet.add v batch
  ∧ fetches (world st') = fetches (world st) ++ fresh_of v batch
  ∧ results (self st') = results (self st) ++ omap produced settled
  ∧ queue (self st')
    = enqueue_all (foldl JSSet.add v batch) (queue (self st))
        (settled ≫= links_of (maxDepth (self st)))
  ∧ encoder (self st') = encoder (self st)
  ∧ schema (self st') = schema (self st)
  ∧ maxDepth (self st') = maxDepth (self st).
Proof.
  intros v settled st'. subst st'. unfold fetchBatch.
  rewrite startAll_eq. fold v. fold settled.
  destruct (resume_all_spec (started (foldl JSSet.add v batch)
                               (fresh_of v batch) st) settled)
    as ((Hv & He & Hsch & Hm & Hf) & Hr & Hq).
  split_and!; try done.
Qed.

Local Abbreviation fetch_phase :=
  (fetch_phase URL_parse URL_resolve fetchClient_get fetch_settle).

(** A turn of the loop is a fetch phase, followed by an ingest batch when
    the buffer is full. *)
Lemma iteration_phases (concurrency batchSize : Z) (st : State) :
  iteration concurrency batchSize st
  = let st2 := fetch_phase concurrency st in
    if (batchSize <=? Z.of_nat (length (results (self st2)))) && ingesting st2
    then processBatch batchSize st2 else st2.
Proof. reflexivity. Qed.

(** The state after a fetch phase, field by field. *)
Lemma fetch_phase_spec (concurrency : Z) (st : State) :
  let v := visited (self st) in
  let batch := JSArray.slice (JSSet.toArray (queue (self st))) 0 concurrency in
  let settled := fetch_settle (item_of <$> fresh_of v batch) in
  let st' := fetch_phase concurrency st in
  visited (self st') = foldl JSSet.add v batch
  ∧ fetches (world st') = fetches (world st) ++ fresh_of v batch
  ∧ results (self st') = results (self st) ++ omap produced settled
  ∧ queue (self st')
    = enqueue_all (foldl JSSet.add v batch)
        (foldl JSSet.delete (queue (self st)) batch)
        (settled ≫= links_of (maxDepth (self st)))
  ∧ encoder (self st') = encoder (self st)
  ∧ schema (self st') = schema (self st)
  ∧ maxDepth (self st') = maxDepth (self st).
Proof.
  intros v batch settled st'. subst st'. unfold fetch_phase.
  fold batch.
  apply (fetchBatch_spec batch
           (set_queue (foldl JSSet.delete (queue (self st)) batch) st)).
Qed.

Lemma reachable_iteration (concurrency batchSize : Z) (st : State) :
  reachable st -> reachable (iteration concurrency batchSize st).
Proof.
  intros Hr. rewrite iteration_phases. cbv zeta.
  destruct (_ && _); [apply reach_ingest|]; by apply reach_fetch.
Qed.

Lemma reachable_exit (st : State) :
  reachable st -> reachable (snd (scrapeAll_exit st)).
Proof.
  intros Hr. unfold scrapeAll_exit. simpl.
  destruct (_ && _); [by apply reach_ingest|done].
Qed.

Lemma running_iteration (st0 : State) (seed : string)
    (concurrency batchSize : Z) (st : State) :
  running st0 seed st -> running st0 seed (iteration concurrency batchSize st).
Proof.
  intros Hr. rewrite iteration_phases. cbv zeta.
  destruct (_ && _); [apply run_ingest|]; by apply run_fetch.
Qed.

(** *** At most one fetch per URL *)





(** *** Same host *)

Lemma slice_elem {A : Type} (l : list A) (start stop : Z) (x : A) :
  x ∈ JSArray.slice l start stop -> x ∈ l.
Proof.
  unfold JSArray.slice. intros Hx.
  eapply elem_of_sublist; [exact Hx|].
  etrans; [apply sublist_take|apply sublist_drop].
Qed.

Lemma enqueue_all_elem (v q : JSSet.t) (links : list string) (y : string) :
  y ∈ enqueue_all v q links <-> y ∈ q ∨ (y ∈ links ∧ y ∉ v).
Proof.
  unfold enqueue_all. revert q.
  induction links as [|link links IH]; intros q; simpl.
  - rewrite elem_of_nil. tauto.
  - rewrite IH, elem_of_cons. destruct (JSSet.has v link) eqn:E.
    + apply JSSet_has_true in E. split; [tauto|].
      intros [?|[[->|?] ?]]; tauto.
    + apply JSSet_has_false in E. rewrite JSSet_elem_of_add.
      split; [|tauto]. intros [[?| ->]|?]; tauto.
Qed.

Lemma enqueue_all_NoDup (v q : JSSet.t) (links : list string) :
  NoDup q -> NoDup (enqueue_all v q links).
Proof.
  unfold enqueue_all. revert q.
  induction links as [|link links IH]; intros q Hq; simpl; [done|].
  apply IH. destruct (JSSet.has v link); [done|by apply JSSet_NoDup_add].
Qed.

Lemma isWithinSameDomain_hostname (y u : string) :
  isWithinSameDomain URL_parse y u = true ->
  hostname_of URL_parse y = hostname_of URL_parse u.
Proof.
  unfold isWithinSameDomain, hostname_of.
  destruct (URL_parse y), (URL_parse u); simpl; try discriminate.
  intros H. apply bool_decide_eq_true in H. by rewrite H.
Qed.

Lemma links_of_elem (maxDepth_ : Z) (queueItem : ScrapeItem) (y : string) :
  y ∈ links_of maxDepth_ queueItem ->
  isWithinSameDomain URL_parse y (item_url queueItem) = true
  ∧ isValidUrl URL_parse y = true
  ∧ depth queueItem < maxDepth_
  ∧ is_Some (fetchClient_get (item_url queueItem)).
Proof.
  unfold links_of.
  destruct (fetchClient_get (item_url queueItem)) as [c|];
    [|by intros ?%elem_of_nil].
  destruct (depth queueItem <? maxDepth_) eqn:Hd; [|by intros ?%elem_of_nil].
  apply Z.ltb_lt in Hd. unfold extractLinks.
  destruct (URL_parse (item_url queueItem)) as [base|]; simpl;
    [|by intros ?%elem_of_nil].
  intros (h & _ & Hk)%list_elem_of_omap. unfold keepLink in Hk.
  destruct (URL_resolve h base) as [abs|]; [|done].
  destruct (_ && _) eqn:E; [|done]. injection Hk as <-.
  apply andb_true_iff in E as [? ?]. split_and!; eauto.
Qed.

Section Settling.

Local Abbreviation on_host := (on_host URL_parse).

(** Every fetch of a batch settles, once. *)
Hypothesis fetch_settle_perm : forall l, fetch_settle l ≡ₚ l.


Lemma on_host_fetch_phase (st0 : State) (seed : string) (concurrency : Z)
    (st : State) :
  on_host st0 seed st -> on_host st0 seed (fetch_phase concurrency st).
Proof.
  intros [Hq Hf].
  destruct (fetch_phase_spec concurrency st) as (_ & Hf' & _ & Hq' & _).
  cbv zeta in Hf', Hq'. unfold on_host. rewrite Hf', Hq'.
  set (batch := JSArray.slice _ 0 concurrency) in *.
  assert (forall u, u ∈ batch ->
            hostname_of URL_parse u = hostname_of URL_parse seed) as Hb.
  { intros u Hu. apply slice_elem in Hu. by apply Hq. }
  split.
  - intros u [Hu|[Hu _]]%enqueue_all_elem.
    + apply JSSet_foldl_delete in Hu as [Hu _]. by apply Hq.
    + apply list_elem_of_bind in Hu as (item & Hu & Hitem).
      rewrite fetch_settle_perm in Hitem.
      apply list_elem_of_fmap in Hitem as (x & -> & Hx).
      apply fresh_of_elem in Hx as [Hx _].
      apply links_of_elem in Hu as (Hd & _).
      apply isWithinSameDomain_hostname in Hd. rewrite Hd. by apply Hb.
  - intros u [Hu|Hu]%elem_of_app; [by apply Hf|].
    right. apply fresh_of_elem in Hu as [Hu _]. by apply Hb.
Qed.

Lemma on_host_running (st0 : State) (seed : string) (st : State) :
  queue (self st0) = [] -> running st0 seed st -> on_host st0 seed st.
Proof.
  intros H0. induction 1 as [md enc sch|st c _ IH|st b _ IH].
  - split; simpl.
    + rewrite H0. intros u [Hu| ->]%JSSet_elem_of_add; [|done].
      by apply elem_of_nil in Hu.
    + intros u Hu. by left.
  - by apply on_host_fetch_phase.
  - destruct IH as [Hq Hf]. split.
    + intros u Hu. apply Hq.
      unfold processBatch in Hu.
      destruct (JSArray.splice0 _ _) as [batch rest]. simpl in Hu.
      destruct (encoder (self st)), (schema (self st)); simpl in Hu; try done.
      by apply trim_subseteq in Hu.
    + intros u. rewrite processBatch_fetches. apply Hf.
Qed.

(** C5. During a [scrapeAll] call entered with an empty queue, every URL
    in the pending queue has the hostname of the seed, a URL with another
    hostname is never in it, and every URL fetched since the call began has
    the hostname of the seed; the test itself compares a link with the page
    it was found on. *)
Theorem crawl_stays_on_seed_host (st0 : State) (seed : string) (st : State) :
  queue (self st0) = [] ->
  running st0 seed st ->
  (forall u, u ∈ queue (self st) ->
     hostname_of URL_parse u = hostname_of URL_parse seed)
  ∧ (forall u, hostname_of URL_parse u ≠ hostname_of URL_parse seed ->
       u ∉ queue (self st))
  ∧ (forall u, u ∈ fetches (world st) ->
       u ∈ fetches (world st0)
       ∨ hostname_of URL_parse u = hostname_of URL_parse seed)
  ∧ (forall maxDepth_ queueItem link,
       link ∈ links_of maxDepth_ queueItem ->
       hostname_of URL_parse link
       = hostname_of URL_parse (item_url queueItem)).
Proof.
  intros H0 Hr. destruct (on_host_running st0 seed st H0 Hr) as [Hq Hf].
  split_and!; [done| |done|].
  - intros u Hu Hin. by apply Hu, Hq.
  - intros md item link Hl. apply links_of_elem in Hl as (Hd & _).
    by apply isWithinSameDomain_hostname.
Qed.

(** *** Failure of one fetch of a batch *)

(** C7. In the fetch phase of a batch, the results buffered are those of
    all the fetches that succeed, whatever the others do: a URL of the
    batch not visited before is visited afterwards; when its fetch succeeds
    its page result is in the buffer; when its fetch fails it leaves no
    result, and the batch does not put it back in the queue. *)
Theorem fetch_failure_is_isolated (batch : list string) (st : State) :
  let st' := fetchBatch batch st in
  results (self st')
    ≡ₚ results (self st)
       ++ omap produced (item_of <$> fresh_of (visited (self st)) batch)
  ∧ forall u, u ∈ batch -> u ∉ visited (self st) ->
      u ∈ visited (self st')
      ∧ (forall c, fetchClient_get u = Some c ->
           {| url := u; content := c |} ∈ results (self st'))
      ∧ (fetchClient_get u = None ->
           forall r, r ∈ results (self st') -> url r = u ->
                     r ∈ results (self st))
      ∧ (u ∈ queue (self st') -> u ∈ queue (self st)).
Proof.
  intros st'. subst st'.
  destruct (fetchBatch_spec batch st) as (Hv & _ & Hr & Hq & _).
  cbv zeta in Hv, Hr, Hq. rewrite Hv, Hr, Hq.
  assert (omap produced
            (fetch_settle (item_of <$> fresh_of (visited (self st)) batch))
          ≡ₚ omap produced (item_of <$> fresh_of (visited (self st)) batch))
    as Hp by (by rewrite fetch_settle_perm).
  split; [by rewrite Hp|].
  intros u Hu Hnv. split_and!.
  - apply JSSet_foldl_add_subseteq. by right.
  - intros c Hc. rewrite Hp. apply elem_of_app. right.
    apply list_elem_of_omap. exists (item_of u). split.
    + apply list_elem_of_fmap. exists u. split; [done|].
      by apply fresh_of_elem.
    + unfold produced. simpl. by rewrite Hc.
  - intros Hc r [Hr'|Hr']%elem_of_app Hurl; [done|].
    apply list_elem_of_omap in Hr' as (item & _ & Hitem).
    unfold produced in Hitem.
    destruct (fetchClient_get (item_url item)) as [c|] eqn:E; [|done].
    injection Hitem as <-. simpl in Hurl. congruence.
  - intros [Hin|[_ Hin]]%enqueue_all_elem; [done|].
    exfalso. apply Hin, JSSet_foldl_add_subseteq. by right.
Qed.

End Settling.

(** *** The value of [scrapeAll] *)

Lemma iteration_config (concurrency batchSize : Z) (st : State) :
  encoder (self (iteration concurrency batchSize st)) = encoder (self st)
  ∧ schema (self (iteration concurrency batchSize st)) = schema (self st)
  ∧ maxDepth (self (iteration concurrency batchSize st)) = maxDepth (self st).
Proof.
  rewrite iteration_phases. cbv zeta.
  destruct (fetch_phase_spec concurrency st) as (_ & _ & _ & _ & He & Hs & Hm).
  cbv zeta in He, Hs, Hm.
  destruct (_ && _); [|done].
  match goal with |- context [processBatch ?b ?s] =>
    destruct (processBatch_config ingest_settle generateId Date_now b s)
      as (He' & Hs' & Hm') end.
  rewrite He', Hs', Hm'. done.
Qed.

Lemma scrapeAll_loop_config (fuel : nat) (concurrency batchSize : Z)
    (st st' : State) :
  scrapeAll_loop fuel concurrency batchSize st = Some st' ->
  encoder (self st') = encoder (self st)
  ∧ schema (self st') = schema (self st)
  ∧ queue (self st') = [].
Proof.
  revert st. induction fuel as [|fuel IH]; intros st; simpl.
  - destruct (0 <? JSSet.size (queue (self st)))%nat eqn:E; [done|].
    intros [= <-]. split_and!; try done.
    apply Nat.ltb_ge in E. unfold JSSet.size in E.
    destruct (queue (self st)); [done|simpl in E; lia].
  - destruct (0 <? JSSet.size (queue (self st)))%nat eqn:E.
    + intros H. apply IH in H as (He & Hs & Hq).
      destruct (iteration_config concurrency batchSize st) as (He' & Hs' & _).
      split_and!; congruence.
    + intros [= <-]. split_and!; try done.
      apply Nat.ltb_ge in E. unfold JSSet.size in E.
      destruct (queue (self st)); [done|simpl in E; lia].
Qed.

Lemma scrapeAll_exit_empty (st : State) :
  ingesting st = true ->
  fst (scrapeAll_exit st) = []
  ∧ results (self (snd (scrapeAll_exit st))) = [].
Proof.
  intros Hing. unfold scrapeAll_exit. simpl. rewrite Hing.
  destruct (0 <? length (results (self st)))%nat eqn:E; simpl.
  - by rewrite processBatch_results.
  - apply Nat.ltb_ge in E. destruct (results (self st)); [done|simpl in E; lia].
Qed.

(** With an encoder and a schema, whatever [scrapeAll] returns is the
    empty array. *)
Lemma scrapeAll_returns_empty (fuel : nat) (baseUrl : string)
    (maxDepth_ concurrency batchSize : Z) (enc : EmbedEncoder)
    (sch : ScrapeSchema) (st : State) (out : list ScrapeResult)
    (st' : State) :
  scrapeAll fuel baseUrl maxDepth_ concurrency batchSize (Some enc) (Some sch)
    st = Some (out, st') ->
  out = [] ∧ results (self st') = [] ∧ queue (self st') = [].
Proof.
  unfold scrapeAll. intros H.
  apply fmap_Some in H as (st2 & Hloop & Hexit).
  apply scrapeAll_loop_config in Hloop as (He & Hs & Hq). simpl in He, Hs.
  assert (ingesting st2 = true) as Hing.
  { unfold ingesting. by rewrite He, Hs. }
  destruct (scrapeAll_exit_empty st2 Hing) as [Hout Hres].
  rewrite <- Hexit in Hout, Hres. simpl in Hout, Hres.
  split_and!; [done|done|].
  assert (st' = snd (scrapeAll_exit st2)) as -> by (by rewrite <- Hexit).
  unfold scrapeAll_exit. simpl. rewrite Hing.
  destruct (0 <? _)%nat; simpl; [|done].
  rewrite processBatch_queue by exact Hing. rewrite Hq. reflexivity.
Qed.

(** *** Termination of the loop *)

Lemma slice_head {A : Type} (l l' : list A) (x : A) (concurrency : Z) :
  1 <= concurrency -> l = x :: l' ->
  exists rest, JSArray.slice l 0 concurrency = x :: rest.
Proof.
  intros Hc ->. unfold JSArray.slice, JSArray.relative.
  change (0 <? 0) with false. cbv iota.
  destruct (concurrency <? 0) eqn:E; [apply Z.ltb_lt in E; lia|].
  change (Z.to_nat 0) with 0%nat. rewrite Nat.min_0_l, Nat.sub_0_r. simpl.
  destruct (Z.to_nat concurrency) as [|e] eqn:He; [lia|].
  simpl. by eexists.
Qed.

Lemma foldl_delete_head_length (q : JSSet.t) (x : string) (rest : list string) :
  x ∈ q -> (length (foldl JSSet.delete q (x :: rest)) < length q)%nat.
Proof.
  intros Hx. simpl. eapply Nat.le_lt_trans; [apply JSSet_foldl_delete_length|].
  unfold JSSet.delete. apply (length_filter_lt _ _ x Hx). intros H. by apply H.
Qed.

Lemma foldl_add_length (s l : list string) :
  (length (foldl JSSet.add s l) <= length s + length l)%nat.
Proof.
  revert s. induction l as [|x l IH]; intros s; simpl; [lia|].
  etrans; [apply IH|]. unfold JSSet.add.
  destruct (JSSet.has s x); rewrite ?length_app; simpl; lia.
Qed.

Lemma trim_length (q : JSSet.t) : (length (trim q) <= length q)%nat.
Proof.
  unfold trim. destruct (10000 <? _); [|done].
  etrans; [apply foldl_add_length|]. unfold JSArray.slice_from, JSSet.toArray.
  simpl. rewrite length_drop. lia.
Qed.

Lemma filter_length_le (P Q : string -> Prop) `{!forall x, Decision (P x)}
    `{!forall x, Decision (Q x)} (l : list string) :
  (forall x, P x -> Q x) -> (length (filter P l) <= length (filter Q l))%nat.
Proof.
  intros HPQ. induction l as [|y l IH]; simpl; [done|].
  rewrite !filter_cons. destruct (decide (P y)) as [HP|HP].
  - rewrite decide_True by auto. simpl. lia.
  - destruct (decide (Q y)); simpl; lia.
Qed.

Lemma filter_length_lt (P Q : string -> Prop) `{!forall x, Decision (P x)}
    `{!forall x, Decision (Q x)} (l : list string) (x : string) :
  (forall x, P x -> Q x) -> x ∈ l -> Q x -> ¬ P x ->
  (length (filter P l) < length (filter Q l))%nat.
Proof.
  intros HPQ Hx HQ HP. induction l as [|y l IH]; [by apply elem_of_nil in Hx|].
  rewrite !filter_cons. apply elem_of_cons in Hx as [<-|Hx].
  - rewrite decide_False, decide_True by done. simpl.
    pose proof (filter_length_le P Q l HPQ). lia.
  - specialize (IH Hx). destruct (decide (P y)) as [HPy|HPy].
    + rewrite decide_True by auto. simpl. lia.
    + destruct (decide (Q y)); simpl; lia.
Qed.

Lemma processBatch_queue_cases (batchSize : Z) (st : State) :
  queue (self (processBatch batchSize st)) = queue (self st)
  ∨ queue (self (processBatch batchSize st)) = trim (queue (self st)).
Proof.
  unfold processBatch.
  destruct (JSArray.splice0 _ _) as [batch rest]. simpl.
  destruct (encoder (self st)), (schema (self st)); simpl; auto.
Qed.

(** *** The sets of an instance *)

(** The two sets of an instance never hold a URL twice. *)
Lemma reachable_NoDup (st : State) :
  reachable st -> NoDup (visited (self st)) ∧ NoDup (queue (self st)).
Proof.
  induction 1 as [w Hw|st baseUrl md enc sch _ [IHv IHq]|st c _ [IHv IHq]
                 |st b _ [IHv IHq]].
  - split; constructor.
  - split; [done|]. simpl. by apply JSSet_NoDup_add.
  - destruct (fetch_phase_spec c st) as (Hv & _ & _ & Hq & _).
    cbv zeta in Hv, Hq. rewrite Hv, Hq. split.
    + by apply JSSet_foldl_add_NoDup.
    + by apply enqueue_all_NoDup, JSSet_foldl_delete_NoDup.
  - rewrite processBatch_visited. split; [done|].
    destruct (processBatch_queue_cases b st) as [-> | ->];
      [done|by apply trim_NoDup].
Qed.

(** *** Progress of a turn *)

Section Finite.

Hypothesis fetch_settle_perm : forall l, fetch_settle l ≡ₚ l.

(** Every link the site offers is one of finitely many URLs. *)
Variable universe : list string.
Hypothesis universe_closed :
  forall u c links y,
    fetchClient_get u = Some c -> extractLinks c u = Some links ->
    y ∈ links -> y ∈ universe.

Lemma links_of_universe (maxDepth_ : Z) (queueItem : ScrapeItem) (y : string) :
  y ∈ links_of maxDepth_ queueItem -> y ∈ universe.
Proof.
  unfold links_of.
  destruct (fetchClient_get (item_url queueItem)) as [c|] eqn:Hc;
    [|by intros ?%elem_of_nil].
  destruct (_ <? _); [|by intros ?%elem_of_nil].
  destruct (extractLinks c (item_url queueItem)) as [links|] eqn:Hl;
    [|by intros ?%elem_of_nil].
  simpl. by eapply universe_closed.
Qed.

(** A fetch phase on a queue that is not empty either visits a new URL or
    leaves the visited set alone and shortens the queue. *)
Lemma fetch_phase_progress (U : list string) (concurrency : Z) (st : State) :
  1 <= concurrency ->
  (forall y, y ∈ universe -> y ∈ U) ->
  (forall y, y ∈ queue (self st) -> y ∈ U) ->
  queue (self st) ≠ [] ->
  let st' := fetch_phase concurrency st in
  (forall y, y ∈ queue (self st') -> y ∈ U)
  ∧ ((unvisited U st' < unvisited U st)%nat
     ∨ ((unvisited U st' <= unvisited U st)%nat
        ∧ (length (queue (self st')) < length (queue (self st)))%nat)).
Proof.
  intros Hc HU Hq Hne st'. subst st'.
  destruct (fetch_phase_spec concurrency st) as (Hv & _ & _ & Hq' & _).
  cbv zeta in Hv, Hq'. unfold unvisited. rewrite Hv, Hq'.
  set (batch := JSArray.slice _ 0 concurrency) in *.
  set (v := visited (self st)) in *.
  assert (forall y, y ∈ batch -> y ∈ queue (self st)) as Hbq.
  { intros y Hy. by apply slice_elem in Hy. }
  split.
  - intros y [Hy|[Hy _]]%enqueue_all_elem.
    + apply JSSet_foldl_delete in Hy as [Hy _]. by apply Hq.
    + apply list_elem_of_bind in Hy as (item & Hy & _).
      apply links_of_universe in Hy. by apply HU.
  - assert (forall x, x ∉ foldl JSSet.add v batch -> x ∉ v) as Hmono.
    { intros x Hx Hx'. apply Hx, JSSet_foldl_add_subseteq. by left. }
    destruct (fresh_of v batch) as [|u fresh] eqn:Hfresh.
    + right. split; [by apply filter_length_le|].
      assert (fetch_settle (item_of <$> []) = []) as ->.
      { apply Permutation_nil_r. by rewrite fetch_settle_perm. }
      simpl. change (enqueue_all ?a ?b []) with b.
      destruct (queue (self st)) as [|x q] eqn:Eq; [done|].
      destruct (slice_head (x :: q) q x concurrency Hc eq_refl) as [rest Hs].
      unfold JSSet.toArray in batch. subst batch. rewrite Hs.
      apply foldl_delete_head_length. left.
    + left. assert (u ∈ batch ∧ u ∉ v) as [Hub Huv].
      { apply fresh_of_elem. rewrite Hfresh. left. }
      apply (filter_length_lt _ _ _ u); [done|by apply Hq, Hbq|done|].
      intros Hn. apply Hn, JSSet_foldl_add_subseteq. by right.
Qed.

Lemma iteration_progress (U : list string) (concurrency batchSize : Z)
    (st : State) :
  1 <= concurrency ->
  (forall y, y ∈ universe -> y ∈ U) ->
  (forall y, y ∈ queue (self st) -> y ∈ U) ->
  queue (self st) ≠ [] ->
  let st' := iteration concurrency batchSize st in
  (forall y, y ∈ queue (self st') -> y ∈ U)
  ∧ ((unvisited U st' < unvisited U st)%nat
     ∨ ((unvisited U st' <= unvisited U st)%nat
        ∧ (length (queue (self st')) < length (queue (self st)))%nat)).
Proof.
  intros Hc HU Hq Hne st'. subst st'. rewrite iteration_phases. cbv zeta.
  destruct (fetch_phase_progress U concurrency st Hc HU Hq Hne) as [Hq2 Hp].
  destruct (_ && _); [|done].
  unfold unvisited in *. rewrite processBatch_visited.
  match goal with |- context [processBatch ?b ?s] =>
    destruct (processBatch_queue_cases b s) as [-> | ->] end; [done|].
  pose proof (trim_length (queue (self (fetch_phase concurrency st)))).
  split; [by intros y Hy%trim_subseteq; apply Hq2|].
  destruct Hp as [?|[? ?]]; [by left|right; split; [done|lia]].
Qed.

Lemma scrapeAll_loop_total (U : list string) (concurrency batchSize : Z) :
  1 <= concurrency ->
  (forall y, y ∈ universe -> y ∈ U) ->
  forall n m st,
    (forall y, y ∈ queue (self st) -> y ∈ U) ->
    (unvisited U st <= n)%nat -> (length (queue (self st)) <= m)%nat ->
    exists fuel st', scrapeAll_loop fuel concurrency batchSize st = Some st'.
Proof.
  intros Hc HU n.
  induction n as [n IHn] using (well_founded_induction lt_wf). intros m.
  induction m as [m IHm] using (well_founded_induction lt_wf).
  intros st Hq Hn Hm.
  destruct (queue (self st)) as [|x q] eqn:Eq.
  - exists 0%nat, st. simpl. unfold JSSet.size. by rewrite Eq.
  - assert (queue (self st) ≠ []) as Hne by (by rewrite Eq).
    rewrite <- Eq in Hq, Hm.
    destruct (iteration_progress U concurrency batchSize st Hc HU Hq Hne)
      as [Hq' Hp].
    cbv zeta in Hq', Hp.
    assert (exists fuel st',
              scrapeAll_loop fuel concurrency batchSize
                (iteration concurrency batchSize st) = Some st')
      as (fuel & st' & Hloop).
    { destruct Hp as [Hlt|[Hle Hlt]].
      - eapply (IHn (unvisited U (iteration concurrency batchSize st)));
          [lia|exact Hq'|done|done].
      - eapply (IHm (length (queue (self (iteration concurrency batchSize st)))));
          [lia|exact Hq'|lia|done]. }
    exists (S fuel), st'. simpl. unfold JSSet.size. rewrite Eq. simpl.
    exact Hloop.
Qed.

End Finite.

Lemma trim_nonempty (q : JSSet.t) : q ≠ [] -> trim q ≠ [].
Proof.
  intros Hq. unfold trim, JSSet.size.
  destruct (10000 <? Z.of_nat (length q)) eqn:E; [|done].
  apply Z.ltb_lt in E. unfold JSArray.slice_from, JSArray.relative.
  change (-10000 <? 0) with true. cbv iota.
  destruct (drop _ (JSSet.toArray q)) as [|x l] eqn:Hd.
  - apply (f_equal length) in Hd. rewrite length_drop in Hd.
    unfold JSSet.toArray in Hd. simpl in Hd. lia.
  - intros Hnil. assert (x ∈ foldl JSSet.add JSSet.empty (x :: l)) as Hx.
    { apply JSSet_foldl_add_subseteq. right. left. }
    rewrite Hnil in Hx. by apply elem_of_nil in Hx.
Qed.

(** With concurrency 0 the batch is empty and a queue that is not empty
    stays so: no number of turns ends the loop. *)
Lemma scrapeAll_loop_stalls (fuel : nat) (batchSize : Z) (st : State) :
  (forall l, fetch_settle l ≡ₚ l) ->
  queue (self st) ≠ [] ->
  scrapeAll_loop fuel 0 batchSize st = None.
Proof.
  intros Hperm. revert st. induction fuel as [|fuel IH]; intros st Hq; simpl;
    unfold JSSet.size;
    destruct (queue (self st)) as [|x q] eqn:Eq; try done; simpl.
  apply IH. rewrite iteration_phases. cbv zeta.
  assert (queue (self (fetch_phase 0 st)) = x :: q) as Hq'.
  { destruct (fetch_phase_spec 0 st) as (_ & _ & _ & Hq' & _).
    cbv zeta in Hq'. rewrite Hq', Eq.
    assert (JSArray.slice (JSSet.toArray (x :: q)) 0 0 = []) as -> by done.
    simpl. assert (fetch_settle [] = []) as ->.
    { apply Permutation_nil_r. by rewrite Hperm. }
    done. }
  destruct (_ && _); [|by rewrite Hq'].
  match goal with |- context [processBatch ?b ?s] =>
    destruct (processBatch_queue_cases b s) as [-> | ->] end;
    rewrite Hq'; [done|by apply trim_nonempty].
Qed.

(** C10. With an encoder and a schema, [scrapeAll] never returns anything
    but the empty array, and it leaves the buffer empty; it does return,
    with the empty array, whenever the concurrency is at least one, every
    fetch of a batch settles and the site offers finitely many links. *)
Theorem scrapeAll_resolves_to_empty (baseUrl : string)
    (maxDepth_ concurrency batchSize : Z) (enc : EmbedEncoder)
    (sch : ScrapeSchema) (st : State) :
  (forall fuel out st',
     scrapeAll fuel baseUrl maxDepth_ concurrency batchSize (Some enc)
       (Some sch) st = Some (out, st') ->
     out = [] ∧ results (self st') = [])
  ∧ (1 <= concurrency ->
     (forall l, fetch_settle l ≡ₚ l) ->
     forall universe : list string,
       (forall u c links y,
          fetchClient_get u = Some c -> extractLinks c u = Some links ->
          y ∈ links -> y ∈ universe) ->
       exists fuel st',
         scrapeAll fuel baseUrl maxDepth_ concurrency batchSize (Some enc)
           (Some sch) st = Some ([], st')).
Proof.
  split.
  - intros fuel out st' H.
    apply scrapeAll_returns_empty in H as (? & ? & _). done.
  - intros Hc Hperm universe Hclosed.
    set (st1 := scrapeAll_enter baseUrl maxDepth_ (Some enc) (Some sch) st).
    destruct (scrapeAll_loop_total Hperm universe Hclosed
                (universe ++ queue (self st1)) concurrency batchSize Hc
                (λ y Hy, proj2 (elem_of_app _ _ y) (or_introl Hy))
                (unvisited (universe ++ queue (self st1)) st1)
                (length (queue (self st1))) st1
                (λ y Hy, proj2 (elem_of_app _ _ y) (or_intror Hy))
                (le_n _) (le_n _))
      as (fuel & st2 & Hloop).
    exists fuel, (snd (scrapeAll_exit st2)).
    assert (scrapeAll fuel baseUrl maxDepth_ concurrency batchSize (Some enc)
              (Some sch) st = Some (scrapeAll_exit st2)) as Hrun.
    { unfold scrapeAll. fold st1. by rewrite Hloop. }
    rewrite Hrun. f_equal.
    destruct (scrapeAll_exit st2) as [out st'] eqn:Hexit.
    apply scrapeAll_returns_empty in Hrun as (-> & _). done.
Qed.

End CrawlProps.

(** ** Depth *)

(** C2. Every item handed to [processUrl] carries depth 0, whatever the
    number of links between the seed and its URL, so with [maxDepth] 1 the
    crawl of four pages in a row goes on past the first link: the second
    page, found at depth 1, has its link extracted and queued, and the
    third and fourth pages are fetched. *)
Theorem depth_is_not_carried :
  (forall batch st queueItem,
     queueItem ∈ snd (startAll batch st) -> depth queueItem = 0)
  ∧ Sample.observe
      (Sample.crawl Sample.chain 10 "https://a.test/" 1 10 100 None None
         Sample.fresh)
    = Some
        ([{| url := "https://a.test/";
             content := "<main><a href='/d1'>1</a></main>" |};
          {| url := "https://a.test/d1";
             content := "<main><a href='/d2'>2</a></main>" |};
          {| url := "https://a.test/d2";
             content := "<main><a href='/d3'>3</a></main>" |};
          {| url := "https://a.test/d3"; content := "<main>end</main>" |}],
         ["https://a.test/"; "https://a.test/d1"; "https://a.test/d2";
          "https://a.test/d3"],
         [], [],
         [{| url := "https://a.test/";
             content := "<main><a href='/d1'>1</a></main>" |};
          {| url := "https://a.test/d1";
             content := "<main><a href='/d2'>2</a></main>" |};
          {| url := "https://a.test/d2";
             content := "<main><a href='/d3'>3</a></main>" |};
          {| url := "https://a.test/d3"; content := "<main>end</main>" |}])
  ∧ queue (self (Sample.turns Sample.chain 2 "https://a.test/" 1 10 100
                   None None))
    = ["https://a.test/d2"].
Proof.
  split_and!.
  - intros batch st queueItem. rewrite startAll_eq. simpl.
    intros (u & -> & _)%list_elem_of_fmap. reflexivity.
  - vm_compute. reflexivity.
  - vm_compute. reflexivity.
Qed.

(** ** Buffered results *)

(** C3. An ingest batch hands the first [batchSize] buffered results to
    the pipeline and then empties the whole buffer. With concurrency 2 and
    batch size 2 on a page with two leaves, the buffer holds three results
    after the second turn; the third is never handed to the encoder and no
    row is stored for it. *)
Theorem processBatch_drops_overflow :
  (forall ingest_settle generateId Date_now batchSize st enc sch,
     encoder (self st) = Some enc -> schema (self st) = Some sch ->
     world (processBatch ingest_settle generateId Date_now batchSize st)
     = ingestBatch ingest_settle generateId Date_now sch enc
         (take (Z.to_nat batchSize) (results (self st))) (world st)
     ∧ results
         (self (processBatch ingest_settle generateId Date_now batchSize st))
       = [])
  ∧ results (self (fetch_phase Sample.URL_parse Sample.URL_resolve
                     (Sample.fetch Sample.fan) Sample.in_order 2
                     (Sample.turns Sample.fan 1 "https://a.test/" 3 2 2
                        (Some Sample.flat) (Some Sample.keep))))
    = [{| url := "https://a.test/";
          content := "<main><a href='/a'>a</a> <a href='/b'>b</a></main>" |};
       {| url := "https://a.test/a"; content := "<main>a</main>" |};
       {| url := "https://a.test/b"; content := "<main>b</main>" |}]
  ∧ Sample.observe
      (Sample.crawl Sample.fan 10 "https://a.test/" 3 2 2 (Some Sample.flat)
         (Some Sample.keep) Sample.fresh)
    = Some
        ([],
         ["https://a.test/"; "https://a.test/a"; "https://a.test/b"],
         [["<main><a href='/a'>a</a> <a href='/b'>b</a></main>"];
          ["<main>a</main>"]],
         ["https://a.test/"; "https://a.test/a"],
         []).
Proof.
  split_and!.
  - intros ingest_settle generateId Date_now batchSize st enc sch He Hs.
    unfold processBatch.
    unfold JSArray.splice0. simpl. rewrite He, Hs. simpl. done.
  - vm_compute. reflexivity.
  - vm_compute. reflexivity.
Qed.

(** ** The sample sites *)

Lemma in_order_perm {A : Type} (l : list A) : Sample.in_order l ≡ₚ l.
Proof. reflexivity. Qed.

Lemma fetch_elem (site : Sample.Site) (u c : string) :
  Sample.fetch site u = Some c -> (u, c) ∈ site.
Proof.
  induction site as [|[u' body] site IH]; simpl; [done|].
  case_bool_decide as E.
  - intros [= <-]. subst. left.
  - intros H. right. by apply IH.
Qed.

Lemma handbook_closed (u c : string) (links : list string) (y : string) :
  Sample.fetch Sample.handbook u = Some c ->
  extractLinks Sample.URL_parse Sample.URL_resolve c u = Some links ->
  y ∈ links -> y ∈ Sample.handbook_links.
Proof.
  intros Hf%fetch_elem Hl Hy. unfold Sample.handbook in Hf.
  repeat (apply elem_of_cons in Hf as [Hf|Hf]);
    [| |by apply elem_of_nil in Hf]; injection Hf as -> ->;
    vm_compute in Hl; injection Hl as <-;
    repeat (apply elem_of_cons in Hy as [->|Hy]);
    try (by apply elem_of_nil in Hy);
    unfold Sample.handbook_links; repeat constructor.
Qed.


Lemma crawl_stays_on_seed_host_witness :
  "https://ext.test/x.html" ∉ queue (self Sample.after_first_fetch).
Proof.
  refine (proj1 (proj2
    (crawl_stays_on_seed_host Sample.URL_parse Sample.URL_resolve
       (Sample.fetch Sample.handbook) Sample.in_order Sample.in_order
       Sample.generateId Sample.Date_now in_order_perm Sample.fresh
       "https://a.test/index.html" Sample.after_first_fetch _ _))
    "https://ext.test/x.html" _).
  - reflexivity.
  - apply run_fetch, run_enter.
  - vm_compute. discriminate.
Defined.

Lemma fetch_failure_is_isolated_witness :
  {| url := "https://a.test/p4"; content := "<main>4</main>" |}
  ∈ results
      (self (fetchBatch Sample.URL_parse Sample.URL_resolve
               (Sample.fetch Sample.gappy) Sample.in_order
               ["https://a.test/p3"; "https://a.test/p4"] Sample.fresh)).
Proof.
  refine (proj1 (proj2 (proj2
    (fetch_failure_is_isolated Sample.URL_parse Sample.URL_resolve
       (Sample.fetch Sample.gappy) Sample.in_order in_order_perm
       ["https://a.test/p3"; "https://a.test/p4"] Sample.fresh)
    "https://a.test/p4" _ _)) "<main>4</main>" _).
  - right. left.
  - vm_compute. apply not_elem_of_nil.
  - reflexivity.
Defined.

Lemma scrapeAll_resolves_to_empty_witness :
  exists fuel st',
    Sample.crawl Sample.handbook fuel "https://a.test/index.html" 1 10 100
      (Some Sample.flat) (Some Sample.keep) Sample.fresh = Some ([], st').
Proof.
  refine (proj2
    (scrapeAll_resolves_to_empty Sample.URL_parse Sample.URL_resolve
       (Sample.fetch Sample.handbook) Sample.in_order Sample.in_order
       Sample.generateId Sample.Date_now "https://a.test/index.html" 1 10 100
       Sample.flat Sample.keep Sample.fresh)
    _ in_order_perm Sample.handbook_links handbook_closed).
  lia.
Defined.

(** The scenario of the handbook: the index links to a second page, to
    another host and to a fragment; both pages of the host are fetched once,
    the other two links are never fetched, and one row is stored, for the
    index, the second page having no content container. *)
Example handbook_crawl :
  Sample.observe
    (Sample.crawl Sample.handbook 10 "https://a.test/index.html" 1 10 100
       (Some Sample.flat) (Some Sample.keep) Sample.fresh)
  = Some
      ([],
       ["https://a.test/index.html"; "https://a.test/page1.html"],
       [["<main><a href='page1.html'>1</a> <a href='https://ext.test/x.html'>x</a> <a href='https://a.test/page1.html#frag'>f</a></main>"]],
       ["https://a.test/index.html"],
       []).
Proof. vm_compute. reflexivity. Qed.

(** A batch of five fetches of which one fails leaves four page results. *)
Example gappy_batch :
  url <$> results
    (self (fetchBatch Sample.URL_parse Sample.URL_resolve
             (Sample.fetch Sample.gappy) Sample.in_order
             ["https://a.test/p1"; "https://a.test/p2"; "https://a.test/p3";
              "https://a.test/p4"; "https://a.test/p5"] Sample.fresh))
  = ["https://a.test/p1"; "https://a.test/p2"; "https://a.test/p4";
     "https://a.test/p5"].
Proof. vm_compute. reflexivity. Qed.

(** Without an encoder the pages fetched are returned. *)
Example crawl_without_encoder :
  match Sample.crawl Sample.fan 10 "https://a.test/" 3 10 100 None
          (Some Sample.keep) Sample.fresh with
  | Some (out, _) => url <$> out
  | None => []
  end
  = ["https://a.test/"; "https://a.test/a"; "https://a.test/b"].
Proof. vm_compute. reflexivity. Qed.

(** * Further properties *)

(** ** The regular expression of [extractLinks] *)

Lemma span_nonquote_clean (s a b : string) :
  Regex.span_nonquote s = (a, b) ->
  forall c, c ∈ list_ascii_of_string a -> Regex.is_quote c = false.
Proof.
  revert a b. induction s as [|c' s IH]; intros a b; simpl.
  - intros [= <- <-] c Hc. by apply elem_of_nil in Hc.
  - destruct (Regex.is_quote c') eqn:E.
    + intros [= <- <-] c Hc. by apply elem_of_nil in Hc.
    + destruct (Regex.span_nonquote s) as [a' b'] eqn:Hs.
      intros [= <- <-] c [->|Hc]%elem_of_cons; [done|].
      by eapply IH.
Qed.

Lemma span_nonquote_length (s a b : string) :
  Regex.span_nonquote s = (a, b) ->
  (String.length b <= String.length s)%nat.
Proof.
  revert a b. induction s as [|c' s IH]; intros a b; simpl.
  - by intros [= <- <-].
  - destruct (Regex.is_quote c').
    + intros [= <- <-]. simpl. lia.
    + destruct (Regex.span_nonquote s) as [a' b'] eqn:Hs.
      intros [= <- <-]. specialize (IH _ _ eq_refl). lia.
Qed.

Lemma match_here_spec (s cap rest : string) :
  Regex.match_here s = Some (cap, rest) ->
  cap ≠ EmptyString
  ∧ (forall c, c ∈ list_ascii_of_string cap -> Regex.is_quote c = false)
  ∧ (String.length rest < String.length s)%nat.
Proof.
  unfold Regex.match_here.
  destruct s as [|h [|r [|e [|f [|eq [|q s']]]]]]; try discriminate.
  destruct (_ =? _)%string; [|discriminate].
  destruct (_ && _); [|discriminate].
  destruct (Regex.span_nonquote s') as [a b] eqn:Hs.
  destruct a as [|c a]; [discriminate|]. destruct b as [|q' b]; [discriminate|].
  intros [= <- <-]. split_and!; [done|by eapply span_nonquote_clean|].
  apply span_nonquote_length in Hs. simpl in *. lia.
Qed.

(** X1. Every capture of the href expression is a non-empty text without
    quote characters, so the test for an empty capture in [extractLinks]
    never holds. *)
Theorem hrefs_captures_are_clean (html h : string) :
  h ∈ Regex.hrefs html ->
  h ≠ EmptyString
  ∧ forall c, c ∈ list_ascii_of_string h -> Regex.is_quote c = false.
Proof.
  unfold Regex.hrefs. generalize (S (String.length html)). intros fuel.
  revert html. induction fuel as [|fuel IH]; intros html; simpl.
  - by intros ?%elem_of_nil.
  - destruct (Regex.match_here html) as [[cap rest]|] eqn:Hm.
    + intros [->|Hh]%elem_of_cons; [|by eapply IH].
      apply match_here_spec in Hm as (? & ? & _). done.
    + destruct html as [|c html]; [by intros ?%elem_of_nil|]. apply IH.
Qed.

Lemma hrefs_captures_are_clean_witness : "/a.html" ≠ EmptyString.
Proof.
  refine (proj1 (hrefs_captures_are_clean "<a HREF='/a.html'>a</a>"
                   "/a.html" _)).
  vm_compute. left.
Defined.

(** The scan is complete: more turns than the text has characters find
    nothing more. *)
Lemma exec_all_fuel (fuel : nat) (html : string) :
  (String.length html < fuel)%nat ->
  Regex.exec_all fuel html = Regex.hrefs html.
Proof.
  unfold Regex.hrefs.
  assert (forall n m s, (String.length s < n)%nat -> (String.length s < m)%nat ->
            Regex.exec_all n s = Regex.exec_all m s) as H.
  { induction n as [|n IH]; intros m s Hn Hm; [lia|].
    destruct m as [|m]; [lia|]. simpl.
    destruct (Regex.match_here s) as [[cap rest]|] eqn:E.
    - apply match_here_spec in E as (_ & _ & Hl). f_equal. apply IH; lia.
    - destruct s as [|c s]; [done|]. simpl in *. apply IH; lia. }
  intros Hf. apply H; [done|lia].
Qed.

(** ** More on the crawl *)

Section MoreCrawl.

Variable URL_parse : string -> option URL.
Variable URL_resolve : string -> URL -> option URL.
Variable fetchClient_get : string -> option string.
Variable fetch_settle : list ScrapeItem -> list ScrapeItem.
Variable ingest_settle :
  list (ScrapeResult * string) -> list (ScrapeResult * string).
Variable generateId : nat -> string.
Variable Date_now : nat -> Z.

Local Abbreviation extractLinks := (extractLinks URL_parse URL_resolve).
Local Abbreviation processUrl_resume :=
  (processUrl_resume URL_parse URL_resolve fetchClient_get).
Local Abbreviation fetchBatch :=
  (fetchBatch URL_parse URL_resolve fetchClient_get fetch_settle).
Local Abbreviation fetch_phase :=
  (fetch_phase URL_parse URL_resolve fetchClient_get fetch_settle).
Local Abbreviation ingestBatch :=
  (ingestBatch ingest_settle generateId Date_now).
Local Abbreviation processBatch :=
  (processBatch ingest_settle generateId Date_now).
Local Abbreviation iteration :=
  (iteration URL_parse URL_resolve fetchClient_get fetch_settle
     ingest_settle generateId Date_now).
Local Abbreviation scrapeAll_loop :=
  (scrapeAll_loop URL_parse URL_resolve fetchClient_get fetch_settle
     ingest_settle generateId Date_now).
Local Abbreviation scrapeAll_exit :=
  (scrapeAll_exit ingest_settle generateId Date_now).
Local Abbreviation scrapeAll :=
  (scrapeAll URL_parse URL_resolve fetchClient_get fetch_settle
     ingest_settle generateId Date_now).
Local Abbreviation running :=
  (running URL_parse URL_resolve fetchClient_get fetch_settle
     ingest_settle generateId Date_now).
Local Abbreviation links_of :=
  (links_of URL_parse URL_resolve fetchClient_get).
Local Abbreviation produced := (produced fetchClient_get).
Local Abbreviation fetch_phase_spec :=
  (fetch_phase_spec URL_parse URL_resolve fetchClient_get fetch_settle).
Local Abbreviation enqueue_all_elem :=
  (enqueue_all_elem URL_parse URL_resolve fetchClient_get).

(** *** Pending and visited *)

(** X2. During a [scrapeAll] call entered with an empty queue, a pending
    URL is not a visited one; the only exception is the seed itself, when
    the instance had already visited it before the call. *)
Theorem pending_is_not_visited (st0 : State) (seed : string) (st : State) :
  queue (self st0) = [] ->
  running st0 seed st ->
  forall u, u ∈ queue (self st) ->
    u ∉ visited (self st) ∨ (u = seed ∧ seed ∈ visited (self st0)).
Proof.
  intros H0. induction 1 as [md enc sch|st c _ IH|st b _ IH]; intros u.
  - simpl. rewrite H0. intros [Hu| ->]%JSSet_elem_of_add;
      [by apply elem_of_nil in Hu|].
    destruct (decide (seed ∈ visited (self st0))); auto.
  - destruct (fetch_phase_spec c st) as (Hv & _ & _ & Hq & _).
    cbv zeta in Hv, Hq. rewrite Hv, Hq. intros Hu.
    apply enqueue_all_elem in Hu as [Hu|[_ Hu]]; [|by left].
    apply JSSet_foldl_delete in Hu as [Hu Hb].
    destruct (IH u Hu) as [Hn|?]; [left|by right].
    rewrite JSSet_foldl_add_subseteq. tauto.
  - rewrite processBatch_visited. intros Hu. apply IH.
    destruct (processBatch_queue_cases ingest_settle generateId Date_now b st)
      as [Hq|Hq]; rewrite Hq in Hu; [done|by apply trim_subseteq].
Qed.

(** *** The batch of a turn *)

Lemma fresh_of_length (v : JSSet.t) (batch : list string) :
  (length (fresh_of v batch) <= length batch)%nat.
Proof.
  revert v. induction batch as [|u batch IH]; intros v; simpl; [done|].
  destruct (JSSet.has v u); rewrite ?length_cons.
  - etrans; [apply IH|lia].
  - apply le_n_S, IH.
Qed.

Lemma slice_prefix {A : Type} (l : list A) (concurrency : Z) :
  0 <= concurrency ->
  JSArray.slice l 0 concurrency = take (Z.to_nat concurrency) l.
Proof.
  intros Hc. unfold JSArray.slice, JSArray.relative.
  change (0 <? 0) with false. cbv iota.
  destruct (concurrency <? 0) eqn:E; [apply Z.ltb_lt in E; lia|].
  change (Z.to_nat 0) with 0%nat. rewrite Nat.min_0_l, Nat.sub_0_r. simpl.
  destruct (Nat.min_spec (Z.to_nat concurrency) (length l)) as [[? ->]|[H ->]];
    [done|].
  change (drop 0 l) with l.
  rewrite (take_ge l (length l)) by done. by rewrite take_ge.
Qed.

(** X3. With a concurrency that is not negative, a turn of the loop issues
    at most that many fetches; they are distinct URLs taken from the queue
    and not visited before, and nothing else is fetched in the turn. *)
Theorem turn_respects_concurrency (concurrency batchSize : Z) (st : State) :
  0 <= concurrency ->
  exists issued,
    fetches (world (iteration concurrency batchSize st))
    = fetches (world st) ++ issued
    ∧ Z.of_nat (length issued) <= concurrency
    ∧ NoDup issued
    ∧ forall u, u ∈ issued -> u ∈ queue (self st) ∧ u ∉ visited (self st).
Proof.
  intros Hc. rewrite iteration_phases. cbv zeta.
  destruct (fetch_phase_spec concurrency st) as (_ & Hf & _).
  cbv zeta in Hf.
  exists (fresh_of (visited (self st))
            (JSArray.slice (JSSet.toArray (queue (self st))) 0 concurrency)).
  split_and!.
  - destruct (_ && _); [rewrite processBatch_fetches|]; exact Hf.
  - pose proof (fresh_of_length (visited (self st))
        (JSArray.slice (JSSet.toArray (queue (self st))) 0 concurrency)) as Hl.
    assert (length (JSArray.slice (JSSet.toArray (queue (self st))) 0
                      concurrency) <= Z.to_nat concurrency)%nat as Hb.
    { rewrite slice_prefix by done. rewrite length_take. lia. }
    lia.
  - apply fresh_of_NoDup.
  - intros u [Hu Hv]%fresh_of_elem. split; [|done].
    by apply slice_elem in Hu.
Qed.

(** X4. After a turn of the loop every URL of the batch that was taken off
    the queue is visited and none of them is pending: a link back to a page
    of the batch does not put it in the queue again. *)
Theorem batch_leaves_the_queue (concurrency batchSize : Z) (st : State)
    (u : string) :
  u ∈ JSArray.slice (JSSet.toArray (queue (self st))) 0 concurrency ->
  u ∈ visited (self (iteration concurrency batchSize st))
  ∧ u ∉ queue (self (iteration concurrency batchSize st)).
Proof.
  intros Hu. rewrite iteration_phases. cbv zeta.
  destruct (fetch_phase_spec concurrency st) as (Hv & _ & _ & Hq & _).
  cbv zeta in Hv, Hq.
  assert (u ∈ visited (self (fetch_phase concurrency st))) as Hvis.
  { rewrite Hv. apply JSSet_foldl_add_subseteq. by right. }
  assert (u ∉ queue (self (fetch_phase concurrency st))) as Hnq.
  { rewrite Hq. intros Hin.
    apply enqueue_all_elem in Hin as [Hin|[_ Hin]].
    - apply JSSet_foldl_delete in Hin as [_ Hin]. done.
    - apply Hin, JSSet_foldl_add_subseteq. by right. }
  destruct (_ && _); [|done].
  rewrite processBatch_visited. split; [done|].
  intros Hin. apply Hnq.
  destruct (processBatch_queue_cases ingest_settle generateId Date_now
              batchSize (fetch_phase concurrency st)) as [Hc|Hc];
    rewrite Hc in Hin; [done|by apply trim_subseteq].
Qed.

Lemma foldl_delete_take (q : JSSet.t) (k : nat) :
  NoDup q -> foldl JSSet.delete q (take k q) = drop k q.
Proof.
  revert k. induction q as [|x q IH]; intros k Hnd; [by destruct k|].
  destruct k as [|k]; [done|]. simpl.
  apply NoDup_cons in Hnd as [Hx Hnd].
  assert (JSSet.delete (x :: q) x = q) as ->; [|by apply IH].
  unfold JSSet.delete. cbn. destruct (decide (x ≠ x)) as [?|_]; [done|].
  clear IH. induction q as [|y q IH]; [done|].
  apply not_elem_of_cons in Hx as [Hxy Hx]. apply NoDup_cons in Hnd as [_ Hnd].
  cbn. destruct (decide (y ≠ x)) as [_|?]; [|done]. f_equal. by apply IH.
Qed.

Lemma enqueue_all_app (v q : JSSet.t) (links : list string) :
  exists added,
    enqueue_all v q links = q ++ added
    ∧ (forall y, y ∈ added -> y ∈ links ∧ (y ∉ v) ∧ (y ∉ q)).
Proof.
  unfold enqueue_all. revert q.
  induction links as [|link links IH]; intros q.
  - exists []. split; [by rewrite app_nil_r|]. by intros y ?%elem_of_nil.
  - cbn [foldl]. destruct (JSSet.has v link) eqn:Ev; cbv iota.
    { destruct (IH q) as (added & -> & Ha). exists added. split; [done|].
      intros y Hy. destruct (Ha y Hy) as (? & ? & ?).
      split_and!; [by right|done|done]. }
    apply JSSet_has_false in Ev.
    destruct (JSSet.has q link) eqn:Eq.
    { assert (JSSet.add q link = q) as ->
        by (unfold JSSet.add; by rewrite Eq).
      destruct (IH q) as (added & -> & Ha). exists added. split; [done|].
      intros y Hy. destruct (Ha y Hy) as (? & ? & ?).
      split_and!; [by right|done|done]. }
    assert (JSSet.add q link = q ++ [link]) as ->
      by (unfold JSSet.add; by rewrite Eq).
    apply JSSet_has_false in Eq.
    destruct (IH (q ++ [link])) as (added & -> & Ha).
    exists (link :: added). split; [by rewrite <- app_assoc|].
    intros y Hy. apply elem_of_cons in Hy as [->|Hy].
    { split_and!; [left|done|done]. }
    destruct (Ha y Hy) as (? & ? & Hn). split_and!; [by right|done|].
    intros Hin. apply Hn, elem_of_app. by left.
Qed.

(** X5. The queue is first in, first out: after the fetch phase of a turn
    with a concurrency that is not negative, the URLs that were not taken
    are still pending, in their order and ahead of the links found in the
    turn; those links were in no page visited so far nor in the queue. *)
Theorem queue_is_first_in_first_out (concurrency : Z) (st : State) :
  0 <= concurrency ->
  NoDup (queue (self st)) ->
  exists added,
    queue (self (fetch_phase concurrency st))
    = drop (Z.to_nat concurrency) (queue (self st)) ++ added
    ∧ (forall y, y ∈ added ->
         (y ∉ visited (self (fetch_phase concurrency st)))
         ∧ (y ∉ queue (self st))).
Proof.
  intros Hc Hnd.
  destruct (fetch_phase_spec concurrency st) as (Hv & _ & _ & Hq & _).
  cbv zeta in Hv, Hq. rewrite Hv, Hq.
  unfold JSSet.toArray. rewrite slice_prefix by done.
  rewrite foldl_delete_take by done.
  match goal with |- context [enqueue_all ?v ?q ?l] =>
    destruct (enqueue_all_app v q l) as (added & -> & Ha) end.
  exists added. split; [done|]. intros y Hy.
  destruct (Ha y Hy) as (_ & Hnv & Hnq). split; [done|].
  intros Hin. rewrite <- (take_drop (Z.to_nat concurrency) (queue (self st)))
    in Hin.
  apply elem_of_app in Hin as [Hin|Hin]; [|done].
  apply Hnv, JSSet_foldl_add_subseteq. by right.
Qed.

(** *** What [scrapeAll] leaves behind *)

(** X6. Whatever its arguments, when [scrapeAll] returns the pending queue
    is empty and the array returned is the buffer of the instance, so a
    further call on the same instance starts from its seed alone. *)
Theorem scrapeAll_leaves_queue_empty (fuel : nat) (baseUrl : string)
    (maxDepth_ concurrency batchSize : Z) (encoder_ : option EmbedEncoder)
    (schema_ : option ScrapeSchema) (st : State) (out : list ScrapeResult)
    (st' : State) :
  scrapeAll fuel baseUrl maxDepth_ concurrency batchSize encoder_ schema_ st
  = Some (out, st') ->
  queue (self st') = [] ∧ out = results (self st').
Proof.
  unfold scrapeAll. intros H.
  apply fmap_Some in H as (st2 & Hloop & Hexit).
  apply scrapeAll_loop_config in Hloop as (_ & _ & Hq).
  unfold scrapeAll_exit in Hexit. injection Hexit as -> ->.
  split; [|done]. destruct (_ && _); [|done].
  destruct (processBatch_queue_cases ingest_settle generateId Date_now
              (Z.of_nat (length (results (self st2)))) st2) as [Hc|Hc];
    rewrite Hc, Hq; reflexivity.
Qed.

(** *** A crawl without ingest *)

Lemma enqueue_world (st : State) (links : list string) :
  world (foldl enqueue st links) = world st.
Proof.
  revert st. induction links as [|l links IH]; intros st; simpl; [done|].
  rewrite IH. unfold enqueue. by destruct (JSSet.has _ _).
Qed.

Lemma processUrl_resume_world (st : State) (queueItem : ScrapeItem) :
  embedding (world (processUrl_resume st queueItem)) = embedding (world st)
  ∧ extracts (world (processUrl_resume st queueItem)) = extracts (world st)
  ∧ ticks (world (processUrl_resume st queueItem)) = ticks (world st).
Proof.
  unfold processUrl_resume.
  destruct (fetchClient_get _) as [c|]; [|done].
  destruct (_ <? _); [|done].
  destruct (extractLinks _ _) as [links|]; [|done].
  by rewrite enqueue_world.
Qed.

Lemma fetch_phase_world (concurrency : Z) (st : State) :
  embedding (world (fetch_phase concurrency st)) = embedding (world st)
  ∧ extracts (world (fetch_phase concurrency st)) = extracts (world st)
  ∧ ticks (world (fetch_phase concurrency st)) = ticks (world st).
Proof.
  unfold fetch_phase, fetchBatch. rewrite startAll_eq.
  match goal with |- context [foldl _ ?s ?l] =>
    generalize l; assert (embedding (world s) = embedding (world st)
                          ∧ extracts (world s) = extracts (world st)
                          ∧ ticks (world s) = ticks (world st)) as H by done;
    revert H; generalize s end.
  intros s H l. revert s H. induction l as [|item l IH]; intros s H; [done|].
  simpl. apply IH.
  destruct (processUrl_resume_world s item) as (-> & -> & ->). done.
Qed.

Section NoIngest.

Hypothesis fetch_settle_perm : forall l, fetch_settle l ≡ₚ l.

Local Abbreviation grown := (grown fetchClient_get).

Lemma grown_refl (st : State) : grown st st.
Proof. exists [], []. by rewrite !app_nil_r. Qed.

Lemma grown_trans (st1 st2 st3 : State) :
  grown st1 st2 -> grown st2 st3 -> grown st1 st3.
Proof.
  intros (p1 & f1 & Hr1 & Hf1 & Hp1) (p2 & f2 & Hr2 & Hf2 & Hp2).
  exists (p1 ++ p2), (f1 ++ f2). rewrite Hr2, Hr1, Hf2, Hf1, <- !app_assoc.
  split_and!; [done|done|].
  by rewrite fmap_app, omap_app, Hp1, Hp2.
Qed.

Lemma grown_fetch_phase (concurrency : Z) (st : State) :
  grown st (fetch_phase concurrency st).
Proof.
  destruct (fetch_phase_spec concurrency st) as (_ & Hf & Hr & _).
  cbv zeta in Hf, Hr. eexists _, _. split_and!; [exact Hr|exact Hf|].
  by rewrite fetch_settle_perm.
Qed.

Lemma scrapeAll_loop_no_ingest (fuel : nat) (concurrency batchSize : Z)
    (st st' : State) :
  ingesting st = false ->
  scrapeAll_loop fuel concurrency batchSize st = Some st' ->
  ingesting st' = false
  ∧ embedding (world st') = embedding (world st)
  ∧ extracts (world st') = extracts (world st)
  ∧ grown st st'.
Proof.
  revert st. induction fuel as [|fuel IH]; intros st Hing; simpl;
    destruct (0 <? JSSet.size (queue (self st)))%nat; try done;
    try (intros [= <-]; split_and!; [done|done|done|apply grown_refl]).
  assert (iteration concurrency batchSize st = fetch_phase concurrency st)
    as ->.
  { rewrite iteration_phases. cbv zeta.
    assert (ingesting (fetch_phase concurrency st) = false) as ->; [|by rewrite andb_false_r].
    destruct (fetch_phase_spec concurrency st) as (_ & _ & _ & _ & He & Hs & _).
    cbv zeta in He, Hs. unfold ingesting in *. by rewrite He, Hs. }
  intros Hloop. apply IH in Hloop as (Hi & He & Hx & Hg).
  - destruct (fetch_phase_world concurrency st) as (He' & Hx' & _).
    split_and!; [done|congruence|congruence|].
    eapply grown_trans; [apply grown_fetch_phase|done].
  - destruct (fetch_phase_spec concurrency st) as (_ & _ & _ & _ & He & Hs & _).
    cbv zeta in He, Hs. unfold ingesting in *. by rewrite He, Hs.
Qed.

(** X7. When the encoder or the schema is omitted, [scrapeAll] computes no
    embedding and stores no row; the array it returns is the buffer it
    started with followed by the page results of the fetches it made, one
    for every fetch that succeeded. *)
Theorem scrapeAll_without_ingest (fuel : nat) (baseUrl : string)
    (maxDepth_ concurrency batchSize : Z) (encoder_ : option EmbedEncoder)
    (schema_ : option ScrapeSchema) (st : State) (out : list ScrapeResult)
    (st' : State) :
  encoder_ = None ∨ schema_ = None ->
  scrapeAll fuel baseUrl maxDepth_ concurrency batchSize encoder_ schema_ st
  = Some (out, st') ->
  embedding (world st') = embedding (world st)
  ∧ extracts (world st') = extracts (world st)
  ∧ exists pages newf,
      out = results (self st) ++ pages
      ∧ fetches (world st') = fetches (world st) ++ newf
      ∧ pages ≡ₚ omap produced (item_of <$> newf).
Proof.
  intros Hnone. unfold scrapeAll. intros H.
  apply fmap_Some in H as (st2 & Hloop & Hexit).
  apply scrapeAll_loop_no_ingest in Hloop as (Hi & He & Hx & Hg).
  2: { unfold ingesting. simpl. destruct Hnone as [-> | ->];
       [done|by rewrite andb_false_r]. }
  unfold scrapeAll_exit in Hexit. rewrite Hi, andb_false_r in Hexit.
  injection Hexit as -> ->. simpl in He, Hx.
  split_and!; [done|done|]. exact Hg.
Qed.

End NoIngest.

End MoreCrawl.

(** ** More on the ingest *)

Section MoreIngest.

Variable ingest_settle :
  list (ScrapeResult * string) -> list (ScrapeResult * string).
Variable generateId : nat -> string.
Variable Date_now : nat -> Z.
Variable enc : EmbedEncoder.
Variable sch : ScrapeSchema.

Local Abbreviation ingestBatch :=
  (ingestBatch ingest_settle generateId Date_now).
Local Abbreviation processBatch :=
  (processBatch ingest_settle generateId Date_now).
Local Abbreviation resume :=
  (λ w2 p, fst (processScrapedResult_resume generateId Date_now
                  (fst p) enc (snd p) w2)).
Local Abbreviation stored_for := (stored_for generateId Date_now).

Lemma ingestStart_from (batch : list ScrapeResult)
    (w : World) (acc : list (ScrapeResult * string)) :
  exists w',
    foldl
      (λ acc result,
         match processScrapedResult_start result sch (fst acc) with
         | (w1, Some markdown) => (w1, snd acc ++ [(result, markdown)])
         | (w1, None) => (w1, snd acc)
         end) (w, acc) batch = (w', acc ++ parsable sch batch)
    ∧ embedding w' = embedding w ∧ ticks w' = ticks w.
Proof.
  revert w acc. induction batch as [|r batch IH]; intros w acc.
  - exists w. simpl. by rewrite app_nil_r.
  - cbn [foldl]. unfold processScrapedResult_start at 2. unfold parsable.
    cbn [omap list_omap fst snd]. fold (parsable sch batch).
    destruct (parse sch (content r)) as [md|]; [|apply IH].
    destruct (String.length md =? 0)%nat; [apply IH|].
    destruct (IH (extracting [md] w) (acc ++ [(r, md)])) as (w' & -> & ? & ?).
    exists w'. by rewrite <- app_assoc.
Qed.

(** The rows one suspended call adds to the table, whatever id is drawn. *)
Lemma resume_rows (p : ScrapeResult * string) (w : World) :
  exists rows,
    embedding (resume w p) = embedding w ++ rows
    ∧ Forall (λ row, exists n, stored_for enc n p = Some row) rows
    ∧ (NoDup (id <$> embedding w) -> NoDup (id <$> embedding (resume w p))).
Proof.
  unfold processScrapedResult_resume, stored_for.
  destruct (extract enc [snd p]) as [er|].
  2: { exists []. simpl. by rewrite app_nil_r. }
  unfold Database.insertVector. cbn [tick embedding].
  case_bool_decide as Hid; cbn [fst].
  - exists []. cbn [tick embedding]. by rewrite app_nil_r.
  - eexists [_]. cbn [log set_embedding embedding]. split_and!; [done| |].
    + constructor; [|constructor]. by exists (ticks w).
    + intros Hnd. rewrite fmap_app. apply NoDup_app. split_and!; [done| |].
      * intros x Hx [->|?%elem_of_nil]%elem_of_cons; done.
      * apply NoDup_singleton.
Qed.

(** The rows the suspended calls of [l] add to the table, whatever ids are
    drawn. *)
Lemma resume_all_rows (l : list (ScrapeResult * string)) (w : World) :
  exists rows,
    embedding (foldl resume w l) = embedding w ++ rows
    ∧ Forall (λ row, exists p n, p ∈ l ∧ stored_for enc n p = Some row) rows
    ∧ (NoDup (id <$> embedding w) ->
       NoDup (id <$> embedding (foldl resume w l))).
Proof.
  revert w. induction l as [|p l IH]; intros w.
  - exists []. simpl. by rewrite app_nil_r.
  - cbn [foldl]. destruct (resume_rows p w) as (rows1 & He1 & Hf1 & Hn1).
    destruct (IH (resume w p)) as (rows2 & He2 & Hf2 & Hn2).
    exists (rows1 ++ rows2). split_and!.
    + by rewrite He2, He1, <- app_assoc.
    + apply Forall_app. split.
      * eapply Forall_impl; [exact Hf1|]. intros row (n & Hn).
        exists p, n. split; [left|done].
      * eapply Forall_impl; [exact Hf2|]. intros row (p' & n & Hp & Hn).
        exists p', n. split; [by right|done].
    + auto.
Qed.

Lemma processBatch_world (batchSize : Z) (st : State) :
  encoder (self st) = Some enc -> schema (self st) = Some sch ->
  world (processBatch batchSize st)
  = ingestBatch sch enc (take (Z.to_nat batchSize) (results (self st)))
      (world st).
Proof.
  intros He Hs. unfold processBatch, JSArray.splice0. simpl.
  by rewrite He, Hs.
Qed.

Lemma ingestBatch_rows (batch : list ScrapeResult) (w : World) :
  exists w1,
    ingestBatch sch enc batch w
    = foldl resume w1 (ingest_settle (parsable sch batch))
    ∧ embedding w1 = embedding w ∧ ticks w1 = ticks w.
Proof.
  unfold ingestBatch, ingestStart.
  destruct (ingestStart_from batch w []) as (w1 & -> & He & Ht).
  exists w1. done.
Qed.

Lemma stored_for_parsable (batch : list ScrapeResult)
    (p : ScrapeResult * string) (n : nat) (row : EmbeddingStored) :
  p ∈ parsable sch batch -> stored_for enc n p = Some row ->
  exists r er,
    r ∈ batch
    ∧ source row = url r
    ∧ parse sch (content r) = Some (stored_content row)
    ∧ stored_content row ≠ EmptyString
    ∧ extract enc [stored_content row] = Some er
    ∧ vector row = default [] (head (data er)).
Proof.
  unfold parsable, stored_for.
  intros (r & Hr & Hp)%list_elem_of_omap Hrow.
  destruct (parse sch (content r)) as [md|] eqn:Hparse; [|done].
  destruct (String.length md =? 0)%nat eqn:Hlen; [done|].
  injection Hp as <-. cbn [fst snd] in Hrow.
  destruct (extract enc [md]) as [er|] eqn:Hex; [|done].
  injection Hrow as <-. exists r, er. cbn.
  split_and!; try done. intros ->. done.
Qed.

Section Settled.

(** Every suspended ingest call settles, once. *)
Hypothesis ingest_settle_perm : forall l, ingest_settle l ≡ₚ l.

(** X8. An ingest batch only appends to the table: the stored rows stay,
    in their order, and every row added comes from one of the first
    [batchSize] buffered results: its source is the URL of the page, its
    content the text the transform gave for the page, which is not empty,
    and its vector the first vector of the encoder's answer for that
    text. *)
Theorem processBatch_rows_come_from_pages (batchSize : Z) (st : State) :
  encoder (self st) = Some enc -> schema (self st) = Some sch ->
  exists rows,
    embedding (world (processBatch batchSize st))
    = embedding (world st) ++ rows
    ∧ forall row, row ∈ rows ->
        exists r er,
          r ∈ take (Z.to_nat batchSize) (results (self st))
          ∧ source row = url r
          ∧ parse sch (content r) = Some (stored_content row)
          ∧ stored_content row ≠ EmptyString
          ∧ extract enc [stored_content row] = Some er
          ∧ vector row = default [] (head (data er)).
Proof.
  intros He Hs. rewrite processBatch_world by done.
  destruct (ingestBatch_rows (take (Z.to_nat batchSize) (results (self st)))
              (world st)) as (w1 & -> & Hw1 & _).
  destruct (resume_all_rows
              (ingest_settle
                 (parsable sch (take (Z.to_nat batchSize) (results (self st)))))
              w1) as (rows & Hrows & Hall & _).
  exists rows. rewrite Hrows, Hw1. split; [done|].
  intros row Hrow. rewrite Forall_forall in Hall.
  destruct (Hall row Hrow) as (p & n & Hp & Hn).
  rewrite ingest_settle_perm in Hp. by eapply stored_for_parsable.
Qed.

End Settled.

Section FreshIds.

Hypothesis ingest_settle_perm : forall l, ingest_settle l ≡ₚ l.
(** The generator never draws an id twice. *)
Hypothesis generateId_inj : forall i j, generateId i = generateId j -> i = j.

Local Abbreviation ids_are_new := (ids_are_new generateId).

Lemma resume_fresh (p : ScrapeResult * string) (w : World) :
  ids_are_new w ->
  exists rows,
    embedding (resume w p) = embedding w ++ rows
    ∧ origin_of <$> rows = page_text <$> embedded enc [p]
    ∧ ids_are_new (resume w p).
Proof.
  intros Hnew. unfold processScrapedResult_resume, embedded.
  rewrite filter_cons, filter_nil.
  destruct (extract enc [snd p]) as [er|]; cbn [is_some].
  2: { rewrite decide_False by done. exists []. simpl.
       by rewrite app_nil_r. }
  rewrite decide_True by done.
  unfold Database.insertVector. cbn [tick embedding].
  rewrite bool_decide_eq_false_2 by (by apply Hnew). cbn [fst].
  eexists [_]. cbn [log set_embedding embedding]. split_and!; [done|done|].
  intros n Hn. cbn [ticks log set_embedding tick embedding] in *.
  rewrite fmap_app. intros [Hin|Hin]%elem_of_app.
  - apply (Hnew n); [lia|done].
  - apply list_elem_of_singleton in Hin. cbn in Hin.
    apply generateId_inj in Hin. lia.
Qed.

Lemma resume_all_fresh (l : list (ScrapeResult * string)) (w : World) :
  ids_are_new w ->
  exists rows,
    embedding (foldl resume w l) = embedding w ++ rows
    ∧ origin_of <$> rows = page_text <$> embedded enc l.
Proof.
  revert w. induction l as [|p l IH]; intros w Hnew.
  - exists []. simpl. by rewrite app_nil_r.
  - cbn [foldl]. destruct (resume_fresh p w Hnew) as (rows1 & He1 & Ho1 & Hn1).
    destruct (IH (resume w p) Hn1) as (rows2 & He2 & Ho2).
    exists (rows1 ++ rows2). split.
    + by rewrite He2, He1, <- app_assoc.
    + rewrite fmap_app, Ho1, Ho2, <- fmap_app. f_equal.
      unfold embedded. by rewrite <- filter_app.
Qed.

(** X10. When the ids drawn are new, an ingest batch stores exactly one row
    for each of the first [batchSize] buffered results that the transform
    gives a text for and whose embedding is computed, with the URL of the
    page and that text; a result without text or whose embedding fails
    costs the others nothing. *)
Theorem processBatch_stores_each_page_once (batchSize : Z) (st : State) :
  encoder (self st) = Some enc -> schema (self st) = Some sch ->
  ids_are_new (world st) ->
  exists rows,
    embedding (world (processBatch batchSize st))
    = embedding (world st) ++ rows
    ∧ origin_of <$> rows
      ≡ₚ page_text <$>
           embedded enc
             (parsable sch (take (Z.to_nat batchSize) (results (self st)))).
Proof.
  intros He Hs Hnew. rewrite processBatch_world by done.
  destruct (ingestBatch_rows (take (Z.to_nat batchSize) (results (self st)))
              (world st)) as (w1 & -> & Hw1 & Ht1).
  destruct (resume_all_fresh
              (ingest_settle
                 (parsable sch (take (Z.to_nat batchSize) (results (self st)))))
              w1) as (rows & Hrows & Ho).
  { intros n Hn. rewrite Hw1. apply Hnew. lia. }
  exists rows. rewrite Hrows, Hw1, Ho. split; [done|].
  unfold embedded. by rewrite ingest_settle_perm.
Qed.

End FreshIds.

End MoreIngest.

(** X9. An ingest batch keeps the ids of the table distinct, whatever ids
    the generator draws: a row whose id is already stored is refused. *)
Theorem processBatch_keeps_ids_distinct
    (ingest_settle :
       list (ScrapeResult * string) -> list (ScrapeResult * string))
    (generateId : nat -> string) (Date_now : nat -> Z) (batchSize : Z)
    (st : State) :
  NoDup (id <$> embedding (world st)) ->
  NoDup (id <$> embedding
                  (world (processBatch ingest_settle generateId Date_now
                            batchSize st))).
Proof.
  intros Hnd.
  destruct (encoder (self st)) as [enc|] eqn:He.
  2: { unfold processBatch, JSArray.splice0. simpl. by rewrite He. }
  destruct (schema (self st)) as [sch|] eqn:Hs.
  2: { unfold processBatch, JSArray.splice0. simpl. by rewrite He, Hs. }
  rewrite (processBatch_world ingest_settle generateId Date_now enc sch)
    by done.
  destruct (ingestBatch_rows ingest_settle generateId Date_now enc sch
              (take (Z.to_nat batchSize) (results (self st))) (world st))
    as (w1 & -> & Hw1 & _).
  destruct (resume_all_rows generateId Date_now enc
              (ingest_settle
                 (parsable sch (take (Z.to_nat batchSize) (results (self st)))))
              w1) as (rows & _ & _ & Hn).
  apply Hn. by rewrite Hw1.
Qed.



(** *** On the sample sites *)

Lemma turn_respects_concurrency_witness :
  exists issued,
    fetches (world (iteration Sample.URL_parse Sample.URL_resolve
                      (Sample.fetch Sample.gappy) Sample.in_order
                      Sample.in_order Sample.generateId Sample.Date_now 2 100
                      (Sample.turns Sample.gappy 1 "https://a.test/" 3 2 100
                         None None)))
    = fetches (world (Sample.turns Sample.gappy 1 "https://a.test/" 3 2 100
                        None None)) ++ issued
    ∧ Z.of_nat (length issued) <= 2.
Proof.
  destruct (turn_respects_concurrency Sample.URL_parse Sample.URL_resolve
              (Sample.fetch Sample.gappy) Sample.in_order Sample.in_order
              Sample.generateId Sample.Date_now 2 100
              (Sample.turns Sample.gappy 1 "https://a.test/" 3 2 100 None None))
    as (issued & H1 & H2 & _); [lia|].
  by exists issued.
Defined.

Lemma batch_leaves_the_queue_witness :
  "https://a.test/index.html"
  ∉ queue (self (iteration Sample.URL_parse Sample.URL_resolve
                   (Sample.fetch Sample.handbook) Sample.in_order
                   Sample.in_order Sample.generateId Sample.Date_now 10 100
                   (Sample.turns Sample.handbook 0
                      "https://a.test/index.html" 1 10 100 None None))).
Proof.
  refine (proj2 (batch_leaves_the_queue Sample.URL_parse Sample.URL_resolve
                   (Sample.fetch Sample.handbook) Sample.in_order
                   Sample.in_order Sample.generateId Sample.Date_now 10 100
                   (Sample.turns Sample.handbook 0
                      "https://a.test/index.html" 1 10 100 None None)
                   "https://a.test/index.html" _)).
  vm_compute. left.
Defined.

Lemma queue_is_first_in_first_out_witness :
  exists added,
    queue (self (fetch_phase Sample.URL_parse Sample.URL_resolve
                   (Sample.fetch Sample.fan) Sample.in_order 1
                   Sample.two_pending))
    = drop 1 (queue (self Sample.two_pending)) ++ added.
Proof.
  destruct (queue_is_first_in_first_out Sample.URL_parse Sample.URL_resolve
              (Sample.fetch Sample.fan) Sample.in_order 1 Sample.two_pending)
    as (added & H & _); [lia| |by exists added].
  apply (bool_decide_unpack _). vm_compute. exact I.
Defined.

(** *** On the sample sites *)

Lemma tally_id_inj (i j : nat) : tally_id i = tally_id j -> i = j.
Proof.
  revert j. induction i as [|i IH]; intros [|j]; simpl; try done.
  intros [= H]. f_equal. by apply IH.
Qed.

Lemma processBatch_rows_come_from_pages_witness :
  exists rows,
    embedding (world (processBatch Sample.in_order Sample.generateId
                        Sample.Date_now 100 Sample.two_pending))
    = embedding (world Sample.two_pending) ++ rows.
Proof.
  destruct (processBatch_rows_come_from_pages Sample.in_order
              Sample.generateId Sample.Date_now Sample.flat Sample.keep
              in_order_perm 100 Sample.two_pending eq_refl eq_refl)
    as (rows & H & _).
  by exists rows.
Defined.

Lemma processBatch_stores_each_page_once_witness :
  exists rows,
    embedding (world (processBatch Sample.in_order tally_id Sample.Date_now
                        100 Sample.two_pending))
    = embedding (world Sample.two_pending) ++ rows
    ∧ origin_of <$> rows ≡ₚ [("https://a.test/", "<main>home</main>")].
Proof.
  refine (processBatch_stores_each_page_once Sample.in_order tally_id
            Sample.Date_now Sample.flat Sample.keep in_order_perm
            tally_id_inj 100 Sample.two_pending eq_refl eq_refl _).
  intros n _. apply not_elem_of_nil.
Defined.

Lemma processBatch_keeps_ids_distinct_witness :
  NoDup (id <$> embedding
                  (world (processBatch Sample.in_order Sample.generateId
                            Sample.Date_now 100 Sample.two_pending))).
Proof.
  apply processBatch_keeps_ids_distinct. constructor.
Defined.

Lemma pending_is_not_visited_witness :
  "https://a.test/page1.html" ∉ visited (self Sample.after_first_fetch)
  ∨ ("https://a.test/page1.html" = "https://a.test/index.html"
     ∧ "https://a.test/index.html" ∈ visited (self Sample.fresh)).
Proof.
  refine (pending_is_not_visited Sample.URL_parse Sample.URL_resolve
            (Sample.fetch Sample.handbook) Sample.in_order Sample.in_order
            Sample.generateId Sample.Date_now Sample.fresh
            "https://a.test/index.html" Sample.after_first_fetch _ _
            "https://a.test/page1.html" _).
  - reflexivity.
  - apply run_fetch, run_enter.
  - vm_compute. left.
Defined.

Lemma scrapeAll_leaves_queue_empty_witness :
  exists out st',
    Sample.crawl Sample.fan 10 "https://a.test/" 3 2 100 None None
      Sample.fresh = Some (out, st')
    ∧ queue (self st') = [].
Proof.
  destruct (Sample.crawl Sample.fan 10 "https://a.test/" 3 2 100 None None
              Sample.fresh) as [[out st']|] eqn:E.
  - exists out, st'. split; [reflexivity|].
    exact (proj1 (scrapeAll_leaves_queue_empty _ _ _ _ _ _ _ _ _ _ _ _ _ _
                    _ _ _ E)).
  - vm_compute in E. discriminate E.
Defined.

Lemma scrapeAll_without_ingest_witness :
  exists out st',
    Sample.crawl Sample.fan 10 "https://a.test/" 3 2 100 None None
      Sample.fresh = Some (out, st')
    ∧ embedding (world st') = embedding (world Sample.fresh).
Proof.
  destruct (Sample.crawl Sample.fan 10 "https://a.test/" 3 2 100 None None
              Sample.fresh) as [[out st']|] eqn:E.
  - exists out, st'. split; [reflexivity|].
    exact (proj1 (scrapeAll_without_ingest _ _ _ _ _ _ _ in_order_perm _ _ _
                    _ _ _ _ _ _ _ (or_introl eq_refl) E)).
  - vm_compute in E. discriminate E.
Defined.

(** ** More on the vector search *)

Section MoreSearch.

Import Database.

Variable vec_distance_cosine : list number -> list number -> Q.

Local Abbreviation reported := (reported vec_distance_cosine).
Local Abbreviation nearer := (nearer vec_distance_cosine).
Local Abbreviation searchVectors := (searchVectors vec_distance_cosine).

(** The rows of the table ranked by distance, of which a search reports
    the head. *)
Lemma searchVectors_ranking (query : list number) (k : nat)
    (table : list EmbeddingStored) :
  exists ranked : list EmbeddingStored,
    ranked ≡ₚ table
    ∧ StronglySorted (nearer query) ranked
    ∧ searchVectors query k table = reported query <$> take k ranked.
Proof.
  set (score := λ e, let d := vec_distance_cosine (vector e) query in
                     ({| stored := e; distance := Some d |}, d)).
  set (P := λ p : Row * Q, exists e, p = score e).
  assert (Forall P (order_by (score <$> table))) as HP.
  { rewrite order_by_perm. apply Forall_fmap, Forall_forall.
    intros e _. by exists e. }
  exists ((stored ∘ fst) <$> order_by (score <$> table)). split_and!.
  - rewrite order_by_perm. clear HP.
    induction table as [|e table IH]; simpl; [done|]. by rewrite IH.
  - eapply (StronglySorted_fmap_on by_score _ P);
      [|exact HP|apply order_by_sorted].
    intros a b [ea ->] [eb ->] Hab. exact Hab.
  - unfold searchVectors, statement_all. fold score.
    rewrite <- !fmap_take, <- !list_fmap_compose.
    apply Forall_fmap_ext. eapply Forall_impl.
    + apply Forall_take, HP.
    + intros p [e ->]. reflexivity.
Qed.

(** X11. A search returns exactly as many entries as the limit allows and
    the table holds: the smaller of the two numbers. In particular a limit
    of 0 and an empty table give the empty array. *)
Theorem searchVectors_count (query : list number) (k : nat)
    (table : list EmbeddingStored) :
  length (searchVectors query k table) = Nat.min k (length table).
Proof.
  destruct (searchVectors_ranking query k table) as (ranked & Hp & _ & ->).
  by rewrite length_fmap, length_take, Hp.
Qed.

Lemma Math_round_antitone (d1 d2 : Q) :
  (d1 <= d2)%Q ->
  Math_round ((1 - d2) * 100)%Q <= Math_round ((1 - d1) * 100)%Q.
Proof. intros H. unfold Math_round. apply Qfloor_resp_le. lra. Qed.

(** X12. The entries of a search come in order of similarity, the most
    similar first: the similarity never increases along the array. *)
Theorem searchVectors_similarity_descends (query : list number) (k : nat)
    (table : list EmbeddingStored) :
  StronglySorted (λ a b, similarity b <= similarity a)
    (searchVectors query k table).
Proof.
  destruct (searchVectors_ranking query k table) as (ranked & _ & Hs & ->).
  apply (StronglySorted_fmap_on (nearer query) _ (λ _, True)).
  - intros a b _ _ Hab. simpl. by apply Math_round_antitone.
  - by apply Forall_true.
  - rewrite <- (take_drop k ranked) in Hs.
    by apply StronglySorted_app_1_l in Hs.
Qed.

(** X13. When the distance function stays between 0 and 2, as a cosine
    distance does, every similarity reported is a whole number between
    -100 and 100; when it stays between 0 and 1, between 0 and 100. *)
Theorem searchVectors_similarity_range (query : list number) (k : nat)
    (table : list EmbeddingStored) (top : Z) (r : EmbeddingQuery) :
  top = 1 ∨ top = 2 ->
  (forall a b, 0 <= vec_distance_cosine a b <= inject_Z top)%Q ->
  r ∈ searchVectors query k table ->
  100 - 100 * top <= similarity r <= 100.
Proof.
  intros Htop Hd.
  destruct (searchVectors_ranking query k table) as (ranked & _ & _ & ->).
  intros (e & -> & _)%list_elem_of_fmap. simpl.
  specialize (Hd (vector e) query).
  set (d := vec_distance_cosine (vector e) query) in *. unfold Math_round.
  split.
  - replace (100 - 100 * top) with (Qfloor (inject_Z (100 - 100 * top)))
      by apply Qfloor_Z.
    apply Qfloor_resp_le.
    destruct Htop as [-> | ->];
      [change (100 - 100 * 1) with 0|change (100 - 100 * 2) with (-100)];
      unfold inject_Z in *; clearbody d; lra.
  - replace 100 with (Qfloor (100 + (1 # 2))) at 2 by reflexivity.
    apply Qfloor_resp_le. lra.
Qed.

End MoreSearch.
